(** * keep-to-bear: label normalisation, hashtag escaping and note assembly

    A shallow embedding of the string pipeline of [keep-to-bear.js] /
    [src/keep-to-bear.ts].  The repository carries three successive
    implementations of the converter; the two TypeScript ones are embedded
    here, each in a module of its own:

    - [Hashtags]: the Turndown based converter with [validLabels],
      [escapeInvalidHashtags], [generateHashtags] and a [# title] header;
    - [Frontmatter]: the cheerio based converter that writes a YAML
      [tags:] block under the [06-google-keep/] prefix.

    JavaScript strings are sequences of UTF-16 code units, and the regular
    expressions of the source (none carries the [u] flag) work on code
    units, so a string is a [list N] here. *)

From Stdlib Require Import Ascii String DecimalString List NArith ZArith Lia Bool.
From Stdlib Require SpecFloat.
Import ListNotations.

Local Open Scope N_scope.

(** ** Strings as code-unit sequences *)

Definition codeunit := N.
Definition str := list codeunit.

(** An ASCII literal of the source as a code-unit sequence. *)
Definition js (s : string) : str := map N_of_ascii (list_ascii_of_string s).

Definition LF : codeunit := 10.
Definition HASH : codeunit := 35.       (* # *)
Definition HYPHEN : codeunit := 45.     (* - *)
Definition BACKSLASH : codeunit := 92.

Fixpoint str_eqb (a b : str) : bool :=
  match a, b with
  | [], [] => true
  | x :: a', y :: b' => (x =? y) && str_eqb a' b'
  | _, _ => false
  end.

(** [\s] of an ECMAScript regular expression, which is also the set that
    [String.prototype.trim] strips: WhiteSpace and LineTerminator. *)
Definition isSpace (c : codeunit) : bool :=
  ((9 <=? c) && (c <=? 13)) || (c =? 32) || (c =? 160) || (c =? 5760)
  || ((8192 <=? c) && (c <=? 8202)) || (c =? 8232) || (c =? 8233)
  || (c =? 8239) || (c =? 8287) || (c =? 12288) || (c =? 65279).

(** LineTerminator: the code units [.] does not match. *)
Definition isLineTerminator (c : codeunit) : bool :=
  (c =? 10) || (c =? 13) || (c =? 8232) || (c =? 8233).

Definition isDigit (c : codeunit) : bool := (48 <=? c) && (c <=? 57).
Definition isUpper (c : codeunit) : bool := (65 <=? c) && (c <=? 90).
Definition isLower (c : codeunit) : bool := (97 <=? c) && (c <=? 122).

(** [[a-zA-Z0-9]] *)
Definition isAlnum (c : codeunit) : bool := isLower c || isUpper c || isDigit c.

(** [\w] without the [u] and [i] flags: [[A-Za-z0-9_]]. *)
Definition isWord (c : codeunit) : bool := isAlnum c || (c =? 95).

(** [[\w-]] *)
Definition isWordHyphen (c : codeunit) : bool := isWord c || (c =? HYPHEN).

Fixpoint takeWhile (p : codeunit -> bool) (s : str) : str :=
  match s with
  | c :: r => if p c then c :: takeWhile p r else []
  | [] => []
  end.

Fixpoint dropWhile (p : codeunit -> bool) (s : str) : str :=
  match s with
  | c :: r => if p c then dropWhile p r else s
  | [] => []
  end.

Definition trimStart (s : str) : str := dropWhile isSpace s.
Definition trimEnd (s : str) : str := rev (dropWhile isSpace (rev s)).

(** [String.prototype.trim] *)
Definition trim (s : str) : str := trimEnd (trimStart s).

(** Truthiness of a string value: the empty string is falsy. *)
Definition truthy (s : str) : bool :=
  match s with [] => false | _ => true end.

(** [s.substring(0, n)] *)
Definition substring0 (n : nat) (s : str) : str := firstn n s.

Fixpoint isPrefix (p s : str) : bool :=
  match p, s with
  | [], _ => true
  | x :: p', y :: s' => (x =? y) && isPrefix p' s'
  | _ :: _, [] => false
  end.

(** ** The host: what the JavaScript engine and the process supply

    [String.prototype.toLowerCase] follows the Unicode case tables, which
    are the engine's, not the repository's.  On text made of Basic Latin
    code units it maps [A-Z] to [a-z] and nothing else; its result on any
    other text is left to the host.  [Date.prototype.getHours] and
    [getMinutes] read the local time of the process, whose offset from UTC
    (in milliseconds, at a given time value) is the host's as well. *)
Class Host := {
  unicodeLower : str -> str;
  localTZA : Z -> Z
}.

Definition isAscii (s : str) : bool := forallb (fun c => c <? 128) s.

Definition lowerUnit (c : codeunit) : codeunit :=
  if isUpper c then c + 32 else c.

Definition toLowerCase {H : Host} (s : str) : str :=
  if isAscii s then map lowerUnit s else unicodeLower s.

(** ** [String.prototype.replace] with a global regular expression

    A pattern is given by its anchored matcher: the length of the match
    that starts at the head of the remaining input, [0%nat] when there is
    none (no pattern of the source matches the empty string).  The scan is
    the engine's: try the pattern at the current position; on a match emit
    the replacement and resume right after the matched span, otherwise
    copy one code unit and move on. *)
Definition matcher := str -> nat.

Fixpoint replaceFuel (fuel : nat) (m : matcher) (cb : str -> str) (s : str) : str :=
  match fuel with
  | O => []
  | S fuel' =>
      match s with
      | [] => []
      | c :: r =>
          match m s with
          | O => c :: replaceFuel fuel' m cb r
          | S n => cb (firstn (S n) s) ++ replaceFuel fuel' m cb (skipn n r)
          end
      end
  end.

Definition replace (m : matcher) (cb : str -> str) (s : str) : str :=
  replaceFuel (length s) m cb s.

(** [s.replace(re, "lit")] *)
Definition replaceWith (m : matcher) (lit : str) (s : str) : str :=
  replace m (fun _ => lit) s.

(** The spans the pattern matches, in scan order, each with the code unit
    that stands just before it in the text ([None] at the very start):
    what [matchAll] reports, with the left context instead of the index. *)
Definition lastUnit (prev : option codeunit) (s : str) : option codeunit :=
  match rev s with
  | c :: _ => Some c
  | [] => prev
  end.

Fixpoint occurrencesFuel (fuel : nat) (m : matcher) (prev : option codeunit)
    (s : str) : list (option codeunit * str) :=
  match fuel with
  | O => []
  | S fuel' =>
      match s with
      | [] => []
      | c :: r =>
          match m s with
          | O => occurrencesFuel fuel' m (Some c) r
          | S n =>
              (prev, firstn (S n) s)
                :: occurrencesFuel fuel' m (lastUnit prev (firstn (S n) s)) (skipn n r)
          end
      end
  end.

Definition occurrencesFrom (m : matcher) (prev : option codeunit) (s : str)
    : list (option codeunit * str) :=
  occurrencesFuel (length s) m prev s.

Definition occurrences (m : matcher) (s : str) : list (option codeunit * str) :=
  occurrencesFrom m None s.

(** [s.match(re)] for a global pattern: the matched spans. *)
Definition matches (m : matcher) (s : str) : list str :=
  map snd (occurrences m s).

(** A literal pattern. *)
Definition m_lit (lit : str) : matcher :=
  fun s => if isPrefix lit s then length lit else O.

(** [[class]]: one code unit of a class. *)
Definition m_class (p : codeunit -> bool) : matcher :=
  fun s => match s with c :: _ => if p c then 1%nat else O | [] => O end.

(** [[class]+]: a maximal run of a class. *)
Definition m_plus (p : codeunit -> bool) : matcher :=
  fun s => length (takeWhile p s).

(** [/\//g] *)
Definition re_slash : matcher := m_lit (js "/").
(** [/ - /g] *)
Definition re_sep : matcher := m_lit (js " - ").
(** [/\s+/g] *)
Definition re_spaces : matcher := m_plus isSpace.
(** [/-+/g] *)
Definition re_hyphens : matcher := m_plus (fun c => c =? HYPHEN).
(** [/[^\w\s-]/g] *)
Definition re_notWordSpaceHyphen : matcher :=
  m_class (fun c => negb (isWord c || isSpace c || (c =? HYPHEN))).
(** [/[^a-zA-Z0-9\s-]/g] *)
Definition re_notAlnumSpaceHyphen : matcher :=
  m_class (fun c => negb (isAlnum c || isSpace c || (c =? HYPHEN))).
(** [/\n{3,}/g]: a maximal run of at least three newlines. *)
Definition re_newlines3 : matcher :=
  fun s =>
    let n := length (takeWhile (fun c => c =? LF) s) in
    if (3 <=? n)%nat then n else O.

(** [/#[\w-]+/g] *)
Definition re_hashtag : matcher :=
  fun s =>
    match s with
    | c :: r =>
        if c =? HASH then
          match takeWhile isWordHyphen r with
          | [] => O
          | w => S (length w)
          end
        else O
    | [] => O
    end.

(** [s.replace(pat, rep)] with a string pattern: the first occurrence only. *)
Fixpoint replaceFirst (pat rep s : str) : str :=
  match s with
  | [] => if isPrefix pat [] then rep else []
  | c :: r =>
      if isPrefix pat s then rep ++ skipn (length pat) s
      else c :: replaceFirst pat rep r
  end.

(** [path.basename(p)] of Node's POSIX [path]: trailing slashes are dropped
    and what follows the last remaining slash is kept. *)
Definition basename (p : str) : str :=
  let isSlash := fun c => c =? 47 in
  let stripped := rev (dropWhile isSlash (rev p)) in
  rev (takeWhile (fun c => negb (isSlash c)) (rev stripped)).

(** ** Numbers and dates

    [parseInt(s)] with no radix: leading white space is skipped, a sign is
    read, a [0x] prefix selects radix 16, and the longest digit prefix is
    read; [None] is [NaN].  [parseInt] below gives the integer that was
    read; the Number the engine returns for it is the nearest double,
    [toNumber]. *)

Local Open Scope Z_scope.

Definition digitValue (radix : Z) (c : codeunit) : option Z :=
  let v := if isDigit c then Some (Z.of_N c - 48)
           else if isLower c then Some (Z.of_N c - 87)
           else if isUpper c then Some (Z.of_N c - 55)
           else None in
  match v with
  | Some d => if d <? radix then Some d else None
  | None => None
  end.

Fixpoint digitsValue (radix : Z) (acc : option Z) (s : str) : option Z :=
  match s with
  | c :: r =>
      match digitValue radix c with
      | Some d =>
          digitsValue radix
            (Some (match acc with Some a => a * radix + d | None => d end)) r
      | None => acc
      end
  | [] => acc
  end.

Definition parseInt (s : str) : option Z :=
  let s1 := trimStart s in
  let '(sign, s2) :=
    match s1 with
    | 45%N :: r => (-1, r)
    | 43%N :: r => (1, r)
    | _ => (1, s1)
    end in
  let '(radix, s3) :=
    match s2 with
    | 48%N :: 120%N :: r => (16, r)
    | 48%N :: 88%N :: r => (16, r)
    | _ => (10, s2)
    end in
  option_map (Z.mul sign) (digitsValue radix None s3).

(** *** Doubles

    A Number is an IEEE 754 binary64 value.  The converters compute with
    one Number only, the timestamp, in two steps: the conversion of the
    integer that [parseInt] read, and the division by [1000].  Each gives
    the double nearest to the exact result, a tie going to the even
    significand.  A finite double is kept as its significand and exponent;
    the sign of a zero plays no part, since [TimeClip] drops it. *)

Inductive number : Type :=
| NaN
| Infinity                       (* of either sign *)
| Finite (m e : Z).              (* the value [m * 2 ^ e] *)

(** The integer nearest to [p / q], the even one on a tie ([0 < q]). *)
Definition halfEven (p q : Z) : Z :=
  let f := p / q in
  let r := p mod q in
  if 2 * r <? q then f
  else if q <? 2 * r then f + 1
  else if Z.even f then f else f + 1.

(** [floor (log2 (p / q))], for positive [p] and [q]. *)
Definition binade (p q : Z) : Z :=
  let d := Z.log2 p - Z.log2 q in
  if q * 2 ^ Z.max 0 d <=? p * 2 ^ Z.max 0 (- d) then d else d - 1.

(** The double nearest to [p / q], for positive [p] and [q]: 53 bits of
    significand at the exponent of the binade, no exponent below [-1074]
    (the subnormals), and overflow from [2 ^ 1024]. *)
Definition roundPositive (p q : Z) : number :=
  let e := Z.max (binade p q - 52) (-1074) in
  let m := halfEven (p * 2 ^ Z.max 0 (- e)) (q * 2 ^ Z.max 0 e) in
  if 2 ^ 1024 <=? m * 2 ^ Z.max 0 e then Infinity else Finite m e.

Definition negate (x : number) : number :=
  match x with
  | Finite m e => Finite (- m) e
  | _ => x
  end.

(** The double nearest to [p / q] ([0 < q]). *)
Definition roundQuotient (p q : Z) : number :=
  match p with
  | 0 => Finite 0 0
  | Z.pos _ => roundPositive p q
  | Z.neg _ => negate (roundPositive (- p) q)
  end.

(** The Number of an integer. *)
Definition toNumber (n : Z) : number := roundQuotient n 1.

(** [x / d], for a positive integer [d] that is a double itself. *)
Definition divide (x : number) (d : Z) : number :=
  match x with
  | Finite m e => roundQuotient (m * 2 ^ Z.max 0 e) (d * 2 ^ Z.max 0 (- e))
  | _ => x
  end.

(** The largest time value of a Date, in milliseconds. *)
Definition maxTime : Z := 8640000000000000.

(** [TimeClip]: no time value for [NaN], an infinity or a magnitude above
    [8.64e15]; otherwise the number without its fraction. *)
Definition timeClip (x : number) : option Z :=
  match x with
  | Finite m e =>
      if Z.abs m * 2 ^ Z.max 0 e <=? maxTime * 2 ^ Z.max 0 (- e)
      then Some (Z.quot (m * 2 ^ Z.max 0 e) (2 ^ Z.max 0 (- e)))
      else None
  | _ => None
  end.

(** [new Date(parseInt(usec) / 1000)]: the time value in milliseconds, or
    [None] for an Invalid Date.  (The standard lets an engine read the
    decimal digits after the twentieth as zeros; an integer of that length
    is above [10^20] either way, and the Date invalid.) *)
Definition newDate (usec : str) : option Z :=
  match parseInt usec with
  | Some n => timeClip (divide (toNumber n) 1000)
  | None => None
  end.

(** [w] decimal digits of [n], most significant first. *)
Fixpoint fixedDigits (w : nat) (n : Z) : str :=
  match w with
  | O => []
  | S w' => fixedDigits w' (n / 10) ++ [Z.to_N (48 + n mod 10)]
  end.

(** [n.toString()] for a non-negative integer. *)
Definition numberToString (n : Z) : str :=
  js (NilZero.string_of_uint (N.to_uint (Z.to_N n))).

(** [s.padStart(w, "0")] *)
Definition padStart0 (w : nat) (s : str) : str :=
  repeat 48%N (w - length s) ++ s.

(** Year, month and day of a day number counted from 1970-01-01, in the
    proleptic Gregorian calendar. *)
Definition civilFromDays (days : Z) : Z * Z * Z :=
  let z := days + 719468 in
  let era := z / 146097 in
  let doe := z - era * 146097 in
  let yoe := (doe - doe / 1460 + doe / 36524 - doe / 146096) / 365 in
  let doy := doe - (365 * yoe + yoe / 4 - yoe / 100) in
  let mp := (5 * doy + 2) / 153 in
  let d := doy - (153 * mp + 2) / 5 + 1 in
  let m := if mp <? 10 then mp + 3 else mp - 9 in
  let y := yoe + era * 400 + (if m <=? 2 then 1 else 0) in
  (y, m, d).

Definition msPerDay : Z := 86400000.

(** [Date.prototype.toISOString] of a valid time value:
    [YYYY-MM-DDTHH:mm:ss.sssZ], with a signed six-digit year outside
    [0..9999]. *)
Definition isoString (t : Z) : str :=
  let '(y, m, d) := civilFromDays (t / msPerDay) in
  let ms := t mod msPerDay in
  let year :=
    if (0 <=? y) && (y <=? 9999) then fixedDigits 4 y
    else (if y <? 0 then js "-" else js "+") ++ fixedDigits 6 (Z.abs y) in
  year ++ js "-" ++ fixedDigits 2 m ++ js "-" ++ fixedDigits 2 d ++ js "T"
    ++ fixedDigits 2 (ms / 3600000) ++ js ":"
    ++ fixedDigits 2 (ms / 60000 mod 60) ++ js ":"
    ++ fixedDigits 2 (ms / 1000 mod 60) ++ js "."
    ++ fixedDigits 3 (ms mod 1000) ++ js "Z".

(** [toISOString] throws a RangeError on an Invalid Date: [None]. *)
Definition toISOString (date : option Z) : option str :=
  option_map isoString date.

(** [iso.split("T")[0]] *)
Definition beforeT (iso : str) : str :=
  takeWhile (fun c => negb (c =? 84)%N) iso.

(** [getHours] and [getMinutes] of a valid date: fields of the local time
    [t + LocalTZA(t)]. *)
Definition getHours {H : Host} (t : Z) : Z := (t + localTZA t) / 3600000 mod 24.
Definition getMinutes {H : Host} (t : Z) : Z := (t + localTZA t) / 60000 mod 60.

(** ** Note records ([src/types.ts]) *)

Record KeepLabel := { name : str }.

Record KeepAttachment := { filePath : str; mimetype : option str }.

Record KeepNote := {
  title : option str;
  createdTimestampUsec : option str;
  labels : option (list KeepLabel);
  attachments : option (list KeepAttachment)
}.

(** [x && x.trim()] as a condition, for an optional string [x]. *)
Definition hasText (x : option str) : bool :=
  match x with
  | Some s => truthy s && truthy (trim s)
  | None => false
  end.

(** [if (jsonData.createdTimestampUsec)] *)
Definition hasTimestamp (note : KeepNote) : option str :=
  match createdTimestampUsec note with
  | Some ts => if truthy ts then Some ts else None
  | None => None
  end.

Definition nl : str := [LF].

(** ** Code shared by the two TypeScript converters

    [generateDisplayTitle], [generateFileName] and the attachment lines are
    the same text in both.  A result is an [option]: [None] is the
    RangeError that [toISOString] throws on an unparsable timestamp. *)
Section Shared.
Context {H : Host}.

Definition generateDisplayTitle (jsonData : KeepNote) : option str :=
  match
    match hasTimestamp jsonData with
    | Some ts => option_map beforeT (toISOString (newDate ts))
    | None => Some (js "Unknown Date")
    end
  with
  | None => None
  | Some datePrefix =>
      if hasText (title jsonData) then
        Some (datePrefix ++ js " - "
                ++ trim (match title jsonData with Some t => t | None => [] end))
      else
        match hasTimestamp jsonData with
        | Some ts =>
            match newDate ts with
            | Some t =>
                let hours := padStart0 2 (numberToString (getHours t)) in
                let minutes := padStart0 2 (numberToString (getMinutes t)) in
                Some (datePrefix ++ js "." ++ hours ++ js "." ++ minutes)
            | None =>
                (* not reached: [toISOString] has thrown on the Invalid Date;
                   [getHours] would give [NaN], which [padStart] leaves. *)
                Some (datePrefix ++ js ".NaN.NaN")
            end
        | None => Some datePrefix
        end
  end.

Definition generateFileName (jsonData : KeepNote) : option str :=
  match
    if hasText (title jsonData) then
      Some (toLowerCase
              (replaceWith re_spaces (js "-")
                 (replaceWith re_notWordSpaceHyphen []
                    (trim (match title jsonData with Some t => t | None => [] end)))))
    else
      match hasTimestamp jsonData with
      | Some ts =>
          option_map (fun iso => beforeT iso ++ js "-note")
            (toISOString (newDate ts))
      | None => Some (js "untitled-note")
      end
  with
  | Some fileName => Some (substring0 50 fileName ++ js ".md")
  | None => None
  end.

(** [/\.(jpg|jpeg|png|gif|bmp|svg|webp)$/i.test(fileName)]: without the
    [u] flag, case-insensitive matching of these Basic Latin letters
    accepts exactly their two cases. *)
Definition endsWithNoCase (suffix s : str) : bool :=
  str_eqb (map lowerUnit (skipn (length s - length suffix) s)) suffix
  && (length suffix <=? length s)%nat.

Definition isImage (fileName : str) : bool :=
  existsb (fun ext => endsWithNoCase (js "." ++ ext) fileName)
    [js "jpg"; js "jpeg"; js "png"; js "gif"; js "bmp"; js "svg"; js "webp"].

Definition attachmentLine (fileName : str) : str :=
  if isImage fileName then js "![](" ++ fileName ++ js ")" ++ nl ++ nl
  else js "[" ++ fileName ++ js "](" ++ fileName ++ js ")" ++ nl ++ nl.

Definition attachmentsSection (copiedAttachments : list str) : str :=
  match copiedAttachments with
  | [] => []
  | _ => js "## Attachments" ++ nl ++ nl
           ++ concat (map attachmentLine copiedAttachments)
  end.

Definition contentSection (content : str) : str :=
  if truthy content && truthy (trim content) then trim content ++ nl ++ nl
  else [].

Definition createdMarker (jsonData : KeepNote) : option str :=
  match hasTimestamp jsonData with
  | Some ts =>
      option_map (fun iso => js "<!-- Created: " ++ iso ++ js " -->" ++ nl)
        (toISOString (newDate ts))
  | None => Some []
  end.

(** [jsonFilePath.replace(".json", ".html")] in [convertNote]. *)
Definition htmlFilePath (jsonFilePath : str) : str :=
  replaceFirst (js ".json") (js ".html") jsonFilePath.

(** The label names a converter turns into tags:
    [labels.map(l => l.name).filter(name => name && name.trim())]. *)
Definition labelNames (jsonData : KeepNote) : list str :=
  match labels jsonData with
  | Some ls => filter (fun n => truthy n && truthy (trim n)) (map name ls)
  | None => []
  end.
End Shared.

(** [parts.join(" ")] *)
Fixpoint joinSpace (parts : list str) : str :=
  match parts with
  | [] => []
  | [p] => p
  | p :: rest => p ++ js " " ++ joinSpace rest
  end.

(** ** The Turndown based converter (hashtags under the title) *)
Module Hashtags.

(** [content.split("\n")] *)
Fixpoint splitLines (content : str) : list str :=
  match content with
  | [] => [[]]
  | c :: r =>
      if (c =? LF)%N then [] :: splitLines r
      else match splitLines r with
           | line :: rest => (c :: line) :: rest
           | [] => [[c]]
           end
  end.

(** [match[1]] of [line.match(/^\s*\d+→(.+)$/)]: after optional white space,
    a line number and the arrow U+2192, the rest of the line, which must be
    non-empty and free of line terminators ([.] matches none). *)
Definition lineLabel (line : str) : option str :=
  let afterSpace := dropWhile isSpace line in
  match takeWhile isDigit afterSpace, dropWhile isDigit afterSpace with
  | _ :: _, 8594%N :: captured =>
      if truthy captured && forallb (fun c => negb (isLineTerminator c)) captured
      then Some captured else None
  | _, _ => None
  end.

(** [set.add(x)]: a [Set] keeps insertion order and no duplicate. *)
Definition setAdd (x : str) (set : list str) : list str :=
  if existsb (str_eqb x) set then set else set ++ [x].

(** [loadValidLabels], on the content of [Labels.txt] when the file exists:
    the labels are stored as written, trimmed and nothing else. *)
Definition loadValidLabels (labelsFile : option str) : list str :=
  match labelsFile with
  | Some content =>
      fold_left
        (fun set line =>
           match lineLabel line with
           | Some captured =>
               if truthy (trim captured) then setAdd (trim captured) set else set
           | None => set
           end)
        (splitLines content) []
  | None => []
  end.

Section Converter.
Context {H : Host}.

(** [turndownService.turndown] as configured in [htmlToMarkdown]: the
    Turndown library is a dependency, not code of the repository. *)
Variable turndown : str -> str.

(** [this.validLabels]: the raw labels read from [Labels.txt], in
    insertion order. *)
Variable validLabels : list str.

(** The label as a potential hashtag, inside [escapeInvalidHashtags]. *)
Definition labelAsHashtag (label : str) : str :=
  toLowerCase
    (replaceWith re_hyphens (js "-")
       (replaceWith re_spaces (js "-")
          (replaceWith re_notAlnumSpaceHyphen [] label))).

Definition isValidLabel (hashtag : str) : bool :=
  existsb (fun label => str_eqb (labelAsHashtag label) (toLowerCase hashtag))
    validLabels.

(** The replacement callback of [escapeInvalidHashtags]. *)
Definition escapeMatch (matched : str) : str :=
  let hashtag := skipn 1 matched in
  if isValidLabel hashtag then matched else BACKSLASH :: matched.

Definition escapeInvalidHashtags (content : str) : str :=
  replace re_hashtag escapeMatch content.

Definition htmlToMarkdown (htmlContent : str) : str :=
  let markdown := trim (turndown htmlContent) in
  escapeInvalidHashtags markdown.

(** The [map] callback of [generateHashtags]. *)
Definition labelHashtag (name : str) : str :=
  let processedName := replaceWith re_slash (js " and ") name in
  let processedName := replaceWith re_sep (js "-") processedName in
  let hashtagName := toLowerCase (replaceWith re_spaces (js "-") processedName) in
  js "#" ++ hashtagName.

Definition generateHashtags (jsonData : KeepNote) : list str :=
  js "#06-google-keep" :: map labelHashtag (labelNames jsonData).

(** The text of [generateMarkdown] before its final [trim]. *)
Definition assembleMarkdown (jsonData : KeepNote) (content : str)
    (copiedAttachments : list str) : option str :=
  match generateDisplayTitle jsonData, createdMarker jsonData with
  | Some displayTitle, Some marker =>
      let escapedTitle := escapeInvalidHashtags displayTitle in
      Some (js "# " ++ escapedTitle ++ nl ++ nl
              ++ joinSpace (generateHashtags jsonData) ++ nl ++ nl
              ++ contentSection content
              ++ attachmentsSection copiedAttachments
              ++ marker)
  | _, _ => None
  end.

Definition generateMarkdown (jsonData : KeepNote) (content : str)
    (copiedAttachments : list str) : option str :=
  option_map trim (assembleMarkdown jsonData content copiedAttachments).
End Converter.
End Hashtags.

(** ** The document cheerio hands to the renderer

    A parsed document as the renderer sees it through cheerio: text nodes,
    elements with a tag name, attributes and children, and the nodes that
    are neither (comments, directives). *)
#[local] Set Warnings "-register-all".
Inductive node : Type :=
| TextNode (data : str)
| Element (tagName : str) (attribs : list (str * str)) (children : list node)
| OtherNode.

(** [$(elem).text()]: the text of a node and of its descendants. *)
Fixpoint textContent (n : node) : str :=
  match n with
  | TextNode data => data
  | Element _ _ children => concat (map textContent children)
  | OtherNode => []
  end.

(** [$(elem).attr(name)] *)
Fixpoint attr (attribs : list (str * str)) (key : str) : option str :=
  match attribs with
  | (k, v) :: rest => if str_eqb k key then Some v else attr rest key
  | [] => None
  end.

Definition isStyleOrScript (n : node) : bool :=
  match n with
  | Element tagName _ _ => str_eqb tagName (js "style") || str_eqb tagName (js "script")
  | _ => false
  end.

(** [$("style, script").remove()]: the tree without these elements, at
    any depth. *)
Fixpoint removeStyleScript (n : node) : node :=
  match n with
  | Element tagName attribs children =>
      Element tagName attribs
        (filter (fun c => negb (isStyleOrScript c)) (map removeStyleScript children))
  | _ => n
  end.

(** ** The cheerio based converter (YAML front matter) *)
Module Frontmatter.
Section Converter.
Context {H : Host}.

(** [$list.children("li")] *)
Definition listItems (children : list node) : list node :=
  filter (fun c => match c with
                   | Element tagName _ _ => str_eqb tagName (js "li")
                   | _ => false
                   end) children.

(** The lines of [processList] from item number [i + 1] on. *)
Fixpoint processItems (isOrdered : bool) (i : nat) (items : list node) : str :=
  match items with
  | [] => []
  | li :: rest =>
      let text := trim (textContent li) in
      let prefix :=
        if isOrdered then numberToString (Z.of_nat (i + 1)) ++ js ". " else js "- " in
      prefix ++ text ++ nl ++ processItems isOrdered (S i) rest
  end.

Definition processList (children : list node) (isOrdered : bool) : str :=
  processItems isOrdered O (listItems children).

(** ["#".repeat(level)], where [level] is what [parseInt] gave: [NaN]
    counts as [0] and a negative count is a RangeError ([None]). *)
Definition repeatHash (level : option Z) : option str :=
  match level with
  | Some n => if n <? 0 then None else Some (repeat HASH (Z.to_nat n))
  | None => Some []
  end.

(** What the loop of [htmlToMarkdown] appends for one child of [body]. *)
Definition renderNode (element : node) : option str :=
  match element with
  | TextNode _ => Some (trim (textContent element))
  | Element tagName attribs children =>
      let text := trim (textContent element) in
      let tag := toLowerCase tagName in
      if existsb (str_eqb tag) [js "h1"; js "h2"; js "h3"; js "h4"; js "h5"; js "h6"]
      then
        option_map (fun hashes => hashes ++ js " " ++ text ++ nl ++ nl)
          (repeatHash (parseInt (skipn 1 tagName)))
      else if str_eqb tag (js "p") then Some (text ++ nl ++ nl)
      else if str_eqb tag (js "br") then Some nl
      else if str_eqb tag (js "ul") || str_eqb tag (js "ol") then
        Some (processList children (str_eqb tagName (js "ol")) ++ nl)
      else if str_eqb tag (js "a") then
        match attr attribs (js "href") with
        | Some ((_ :: _) as href) => Some (js "[" ++ text ++ js "](" ++ href ++ js ")")
        | _ => Some text
        end
      else if str_eqb tag (js "strong") || str_eqb tag (js "b") then
        Some (js "**" ++ text ++ js "**")
      else if str_eqb tag (js "em") || str_eqb tag (js "i") then
        Some (js "*" ++ text ++ js "*")
      else if str_eqb tag (js "img") then
        match attr attribs (js "src") with
        | Some ((_ :: _) as src) => Some (js "![](" ++ basename src ++ js ")")
        | _ => Some []
        end
      else if str_eqb tag (js "div") then Some (text ++ nl)
      else Some text
  | OtherNode => Some []
  end.

(** The text the loop has accumulated after the children [nodes]. *)
Fixpoint renderNodes (nodes : list node) : option str :=
  match nodes with
  | [] => Some []
  | n :: rest =>
      match renderNode n, renderNodes rest with
      | Some a, Some b => Some (a ++ b)
      | _, _ => None
      end
  end.

(** [htmlToMarkdown($)], on the children of [body] as parsed. *)
Definition htmlToMarkdown (body : list node) : option str :=
  let contents := filter (fun c => negb (isStyleOrScript c)) (map removeStyleScript body) in
  option_map (fun markdown => trim (replaceWith re_newlines3 (nl ++ nl) markdown))
    (renderNodes contents).

(** The [map] callback of [generateMarkdown], over its [tagPrefix]. *)
Definition labelTag (tagPrefix : str) (name : str) : str :=
  let processedName := replaceWith re_slash (js " & ") name in
  let processedName := replaceWith re_sep (js "/") processedName in
  tagPrefix ++ toLowerCase (replaceWith re_spaces (js "-") processedName).

Definition tagPrefix : str := js "06-google-keep/".

Definition yamlTags (jsonData : KeepNote) : list str :=
  js "06-google-keep" :: map (labelTag tagPrefix) (labelNames jsonData).

(** The text of [generateMarkdown] before its final [trim]. *)
Definition assembleMarkdown (jsonData : KeepNote) (content : str)
    (copiedAttachments : list str) : option str :=
  match generateDisplayTitle jsonData, createdMarker jsonData with
  | Some displayTitle, Some marker =>
      Some (js "---" ++ nl ++ js "tags:" ++ nl
              ++ concat (map (fun tag => js "  - " ++ tag ++ nl) (yamlTags jsonData))
              ++ js "---" ++ nl ++ nl
              ++ js "# " ++ displayTitle ++ nl ++ nl
              ++ contentSection content
              ++ attachmentsSection copiedAttachments
              ++ marker)
  | _, _ => None
  end.

Definition generateMarkdown (jsonData : KeepNote) (content : str)
    (copiedAttachments : list str) : option str :=
  option_map trim (assembleMarkdown jsonData content copiedAttachments).
End Converter.
End Frontmatter.


(** ** Vocabulary of the statements *)

Definition startsWordHyphen (s : str) : bool :=
  match s with c :: _ => isWordHyphen c | [] => false end.

(** A span of the shape [#[\w-]+]. *)
Definition isHashtagToken (tok : str) : bool :=
  match tok with
  | c :: w => (c =? HASH)%N && truthy w && forallb isWordHyphen w
  | [] => false
  end.

Definition startsWithSpace (s : str) : bool :=
  match s with c :: _ => isSpace c | [] => false end.

Definition endsWithSpace (s : str) : bool := startsWithSpace (rev s).

Definition endsWithNewline (s : str) : bool :=
  match rev s with c :: _ => (c =? LF)%N | [] => false end.

(** What [generateMarkdown] owes its caller, given the text it assembled:
    the document is that text trimmed, the text ends with a newline and
    the document does not; no document is returned exactly when the note
    carries a timestamp that gives an Invalid Date. *)
Definition trimmedResult (jsonData : KeepNote) (assembled result : option str) : Prop :=
  match assembled, result with
  | Some md, Some doc =>
      endsWithNewline md = true /\ doc = trim md
      /\ startsWithSpace doc = false /\ endsWithSpace doc = false
      /\ endsWithNewline doc = false
  | None, None =>
      exists ts, hasTimestamp jsonData = Some ts /\ newDate ts = None
  | _, _ => False
  end.

(** Hosts to run the code on: a process at a fixed offset from UTC (in
    milliseconds) whose engine is asked for no case mapping outside Basic
    Latin. *)
Definition fixedOffsetHost (offset : Z) : Host :=
  {| unicodeLower := fun s => s; localTZA := fun _ => offset |}.

Definition utcHost : Host := fixedOffsetHost 0.

(** [TZ=Australia/Sydney] in March 2024: UTC+11. *)
Definition sydneyHost : Host := fixedOffsetHost 39600000.

(** A [Labels.txt] of two numbered lines, [1→Personal - Friends] and
    [2→anything]. *)
Definition labelsTxt : str :=
  js "     1" ++ [8594%N] ++ js "Personal - Friends" ++ nl
    ++ js "     2" ++ [8594%N] ++ js "anything" ++ nl.

(** The README's sample note, 2024-03-15T18:30:00Z, with and without its
    title. *)
Definition dinnerPlans : KeepNote :=
  {| title := Some (js "Dinner Plans");
     createdTimestampUsec := Some (js "1710527400000000");
     labels := None; attachments := None |}.

Definition untitledNote : KeepNote :=
  {| title := None;
     createdTimestampUsec := Some (js "1710527400000000");
     labels := None; attachments := None |}.

Definition questionMarks : KeepNote :=
  {| title := Some (js "???");
     createdTimestampUsec := Some (js "1710527400000000");
     labels := None; attachments := None |}.

(** Steps 3 and 4 of the Label Normaliser, the common tail of [labelTag]
    and [labelHashtag]: white space runs to single hyphens, then lower
    case. *)
Definition normalizerSteps34 {H : Host} (s : str) : str :=
  toLowerCase (replaceWith re_spaces (js "-") s).

(** Two hyphens next to each other. *)
Fixpoint hyphenRun (s : str) : bool :=
  match s with
  | c :: r =>
      ((c =? HYPHEN)%N && match r with d :: _ => (d =? HYPHEN)%N | [] => false end)
      || hyphenRun r
  | [] => false
  end.

(** The three situations of the scan for [#[\w-]+] at the head of the
    remaining input. *)
Inductive scan_view : str -> Prop :=
| sv_nil : scan_view []
| sv_plain c r : re_hashtag (c :: r) = O -> scan_view (c :: r)
| sv_token w rest :
    w <> [] -> forallb isWordHyphen w = true -> startsWordHyphen rest = false ->
    scan_view (HASH :: w ++ rest).

(** What the pattern finds in an escaped text, from what it found in the
    original: the same span, an invalid one now standing right after the
    marker. *)
Definition afterEscape {H : Host} (validLabels : list str)
    (occ : option codeunit * str) : option codeunit * str :=
  (if Hashtags.isValidLabel validLabels (skipn 1 (snd occ)) then fst occ
   else Some BACKSLASH,
   snd occ).

(** The number of spans the escaper prefixes with a marker. *)
Definition invalidCount {H : Host} (validLabels : list str) (s : str) : nat :=
  length
    (filter (fun tok => negb (Hashtags.isValidLabel validLabels (skipn 1 tok)))
       (matches re_hashtag s)).

(** A section of the document: nothing, or text closed by a newline. *)
Definition closedSection (x : str) : Prop := x = [] \/ endsWithNewline x = true.


(** The three replacements of a label normaliser, for its two literals. *)
Definition rewriteLabel (slash sep : str) (name : str) : str :=
  replaceWith re_spaces (js "-")
    (replaceWith re_sep sep (replaceWith re_slash slash name)).

(** The Basic Latin code units, for checks by enumeration. *)
Definition asciiUnits : list codeunit := map N.of_nat (seq 0 128).

(** The shape of a comparison form: lower-case letters, digits, hyphens. *)
Definition isLowerDigitHyphen (c : codeunit) : bool :=
  isLower c || isDigit c || (c =? HYPHEN)%N.

(** The characters a label keeps in [escapeInvalidHashtags]. *)
Definition isAlnumSpaceHyphen (c : codeunit) : bool :=
  isAlnum c || isSpace c || (c =? HYPHEN)%N.

(** The README's [Labels.txt]: one label per line, as it is written there. *)
Definition readmeLabelsTxt : str :=
  js "Personal - Friends" ++ nl ++ js "Reference - Books" ++ nl ++ js "Personal" ++ nl.

(** A line of [Labels.txt] that gives the label [l]. *)
Definition lineGives (line l : str) : Prop :=
  exists captured,
    Hashtags.lineLabel line = Some captured /\ trim captured <> [] /\ l = trim captured.

(** The two halves of [toISOString]'s text, before and after its [T]. *)
Definition isoDate (t : Z) : str :=
  let '(y, m, d) := civilFromDays (t / msPerDay) in
  let year :=
    if (0 <=? y)%Z && (y <=? 9999)%Z then fixedDigits 4 y
    else (if (y <? 0)%Z then js "-" else js "+") ++ fixedDigits 6 (Z.abs y) in
  year ++ js "-" ++ fixedDigits 2 m ++ js "-" ++ fixedDigits 2 d.

Definition isoTime (t : Z) : str :=
  let ms := (t mod msPerDay)%Z in
  fixedDigits 2 (ms / 3600000) ++ js ":"
    ++ fixedDigits 2 (ms / 60000 mod 60) ++ js ":"
    ++ fixedDigits 2 (ms / 1000 mod 60) ++ js "."
    ++ fixedDigits 3 (ms mod 1000) ++ js "Z".

(** The characters of a file name derived from a title. *)
Definition isFileNameUnit (c : codeunit) : bool :=
  isLower c || isDigit c || (c =? 95)%N || (c =? HYPHEN)%N.

(** A note whose timestamp gives an Invalid Date. *)
Definition invalidTimestamp (jsonData : KeepNote) : Prop :=
  exists ts, hasTimestamp jsonData = Some ts /\ newDate ts = None.

(** The text of the optional title, as [jsonData.title.trim()] reads it. *)
Definition titleText (jsonData : KeepNote) : str :=
  trim (match title jsonData with Some t => t | None => [] end).


(** The [tags:] block of the front-matter converter. *)
Definition frontMatter {H : Host} (jsonData : KeepNote) : str :=
  js "---" ++ nl ++ js "tags:" ++ nl
    ++ concat (map (fun tag => js "  - " ++ tag ++ nl) (Frontmatter.yamlTags jsonData))
    ++ js "---" ++ nl ++ nl.

(** A returned document opens with [head], and the assembled text is the
    document followed by white space only. *)
Definition opensWith (head : str) (assembled result : option str) : Prop :=
  match assembled, result with
  | Some md, Some doc =>
      exists rest w,
        doc = head ++ rest /\ md = doc ++ w /\ forallb isSpace w = true
  | None, None => True
  | _, _ => False
  end.

(** The extensions [generateMarkdown] takes for images. *)
Definition imageExtensions : list str :=
  [js "jpg"; js "jpeg"; js "png"; js "gif"; js "bmp"; js "svg"; js "webp"].

(** Three newlines in a row somewhere in a text. *)
Fixpoint tripleNewline (s : str) : bool :=
  match s with
  | a :: r =>
      ((a =? LF)%N
       && match r with b :: c :: _ => (b =? LF)%N && (c =? LF)%N | _ => false end)
      || tripleNewline r
  | [] => false
  end.

(** The tag names of the children of [body] are ASCII. *)
Definition asciiTags (body : list node) : Prop :=
  Forall (fun n => match n with
                   | Element tagName _ _ => isAscii tagName = true
                   | _ => True
                   end) body.

(** [pat] occurs somewhere in [s]. *)
Fixpoint occursIn (pat s : str) : bool :=
  isPrefix pat s || match s with _ :: r => occursIn pat r | [] => false end.

(** A small body: a heading, a paragraph, a style element and a list. *)
Definition sampleBody : list node :=
  [ Element (js "h2") [] [TextNode (js "Plans")];
    TextNode (nl ++ nl ++ nl);
    Element (js "style") [] [TextNode (js "p { color: red }")];
    Element (js "p") [] [TextNode (js " Dinner at "); Element (js "b") [] [TextNode (js "8")]];
    Element (js "ol") [] [Element (js "li") [] [TextNode (js "book")];
                          Element (js "li") [] [TextNode (js "call")]] ].

(** A [style] or [script] element. *)
Definition isStyleTag (tagName : str) : bool :=
  str_eqb tagName (js "style") || str_eqb tagName (js "script").


(** The largest integer that [parseInt] can read from a timestamp
    without the Date becoming invalid: it is rounded down to the double
    [8.64e18], a thousand times [maxTime]. *)
Definition maxUsec : Z := 8640000000000000512.

(** The same time value computed with the Standard Library's executable
    specification of IEEE 754 arithmetic, at 53 bits of precision. *)
Definition ofSpecFloat (f : SpecFloat.spec_float) : number :=
  match f with
  | SpecFloat.S754_zero _ => Finite 0 0
  | SpecFloat.S754_infinity _ => Infinity
  | SpecFloat.S754_nan => NaN
  | SpecFloat.S754_finite s m e => Finite (if s then Z.neg m else Z.pos m) e
  end.

Definition specFloatOfZ (n : Z) : SpecFloat.spec_float :=
  match n with
  | 0%Z => SpecFloat.S754_zero false
  | Z.pos _ => SpecFloat.binary_normalize 53 1024 n 0 false
  | Z.neg _ => SpecFloat.SFopp (SpecFloat.binary_normalize 53 1024 (- n) 0 false)
  end.

Definition referenceTimeValue (n : Z) : option Z :=
  timeClip (ofSpecFloat (SpecFloat.SFdiv 53 1024 (specFloatOfZ n) (specFloatOfZ 1000))).

(** Timestamps around the places where doubles round: a millisecond, the
    last exact integer [2^53], a day boundary of the year 2527, the bound
    of the Date range, and far beyond it. *)
Definition timestampSamples : list Z :=
  [0; 1; 999; 1000; 1001; -1; -999; -1000; -1001;
   1710527400000000; 1710527400000999;
   9007199254740991; 9007199254740992; 9007199254740993; 9007199254741999;
   17592186044415999; 17592249599999999; 35184372088831999;
   8640000000000000000; 8640000000000000001; 8640000000000000512;
   8640000000000000513; 8640000000000001024;
   -8640000000000000512; -8640000000000000513;
   123456789012345678901234567890; 10 ^ 400]%Z.







(** * Properties *)

(** ** The scanning engine *)

Lemma skipn_length_le (n : nat) (r : str) : (length (skipn n r) <= length r)%nat.
Proof. rewrite length_skipn. lia. Qed.

Lemma replaceFuel_stable (m : matcher) (cb : str -> str) :
  forall f1 f2 s, (length s <= f1)%nat -> (length s <= f2)%nat ->
    replaceFuel f1 m cb s = replaceFuel f2 m cb s.
Proof.
  induction f1 as [|f1 IH]; intros f2 s H1 H2.
  - destruct s; [|simpl in H1; lia]. destruct f2; reflexivity.
  - destruct f2 as [|f2].
    + destruct s; [reflexivity | simpl in H2; lia].
    + destruct s as [|c r]; [reflexivity|]. simpl in H1, H2. simpl.
      destruct (m (c :: r)) as [|n].
      * f_equal. apply IH; lia.
      * f_equal. pose proof (skipn_length_le n r). apply IH; lia.
  Qed.

Lemma replace_nil (m : matcher) (cb : str -> str) : replace m cb [] = [].
Proof. reflexivity. Qed.

Lemma replace_cons (m : matcher) (cb : str -> str) (c : codeunit) (r : str) :
  replace m cb (c :: r) =
  match m (c :: r) with
  | O => c :: replace m cb r
  | S n => cb (firstn (S n) (c :: r)) ++ replace m cb (skipn n r)
  end.
Proof.
  unfold replace. simpl length. cbn [replaceFuel].
  destruct (m (c :: r)) as [|n]; f_equal.
  pose proof (skipn_length_le n r). apply replaceFuel_stable; lia.
Qed.

Lemma occurrencesFuel_stable (m : matcher) :
  forall f1 f2 prev s, (length s <= f1)%nat -> (length s <= f2)%nat ->
    occurrencesFuel f1 m prev s = occurrencesFuel f2 m prev s.
Proof.
  induction f1 as [|f1 IH]; intros f2 prev s H1 H2.
  - destruct s; [|simpl in H1; lia]. destruct f2; reflexivity.
  - destruct f2 as [|f2].
    + destruct s; [reflexivity | simpl in H2; lia].
    + destruct s as [|c r]; [reflexivity|]. simpl in H1, H2.
      cbn [occurrencesFuel].
      destruct (m (c :: r)) as [|n].
      * apply IH; lia.
      * f_equal. pose proof (skipn_length_le n r). apply IH; lia.
Qed.

Lemma occurrencesFrom_nil (m : matcher) prev : occurrencesFrom m prev [] = [].
Proof. reflexivity. Qed.

Lemma occurrencesFrom_cons (m : matcher) prev (c : codeunit) (r : str) :
  occurrencesFrom m prev (c :: r) =
  match m (c :: r) with
  | O => occurrencesFrom m (Some c) r
  | S n =>
      (prev, firstn (S n) (c :: r))
        :: occurrencesFrom m (lastUnit prev (firstn (S n) (c :: r))) (skipn n r)
  end.
Proof.
  unfold occurrencesFrom. simpl length. cbn [occurrencesFuel].
  destruct (m (c :: r)) as [|n]; [reflexivity|]. f_equal.
  pose proof (skipn_length_le n r). apply occurrencesFuel_stable; lia.
Qed.

(** Induction on the length of the remaining input, the measure of every
    scan. *)
Lemma str_length_ind (P : str -> Prop) :
  (forall s, (forall t, (length t < length s)%nat -> P t) -> P s) ->
  forall s, P s.
Proof.
  intros step s. remember (length s) as n eqn:E.
  revert s E. induction n as [n IH] using lt_wf_ind.
  intros s ->. apply step. intros t Ht. exact (IH _ Ht t eq_refl).
Qed.

Lemma matches_from (m : matcher) :
  forall s prev, map snd (occurrencesFrom m prev s) = matches m s.
Proof.
  unfold matches, occurrences.
  induction s as [s IH] using str_length_ind. intros prev.
  destruct s as [|c r]; [reflexivity|].
  rewrite !occurrencesFrom_cons.
  destruct (m (c :: r)) as [|n].
  - rewrite (IH r) by (simpl; lia). symmetry. apply IH. simpl; lia.
  - cbn [map snd]. f_equal. pose proof (skipn_length_le n r).
    rewrite (IH (skipn n r)) by (simpl; lia). symmetry. apply IH. simpl; lia.
Qed.

Lemma matches_cons (m : matcher) (c : codeunit) (r : str) :
  matches m (c :: r) =
  match m (c :: r) with
  | O => matches m r
  | S n => firstn (S n) (c :: r) :: matches m (skipn n r)
  end.
Proof.
  unfold matches at 1. unfold occurrences. rewrite occurrencesFrom_cons.
  destruct (m (c :: r)); [apply matches_from|].
  cbn [map snd]. f_equal. apply matches_from.
Qed.

(** ** Runs of a character class *)

Lemma takeWhile_dropWhile p s : takeWhile p s ++ dropWhile p s = s.
Proof.
  induction s as [|c r IH]; [reflexivity|]. simpl.
  destruct (p c); [simpl; now rewrite IH | reflexivity].
Qed.

Lemma takeWhile_all p s : forallb p (takeWhile p s) = true.
Proof.
  induction s as [|c r IH]; [reflexivity|]. simpl.
  destruct (p c) eqn:E; [simpl; now rewrite E | reflexivity].
Qed.

Lemma takeWhile_app_all p w rest :
  forallb p w = true -> takeWhile p (w ++ rest) = w ++ takeWhile p rest.
Proof.
  induction w as [|c w IH]; [reflexivity|]. simpl.
  intros E. apply andb_true_iff in E as [-> E]. now rewrite IH.
Qed.

Lemma dropWhile_head p s :
  match dropWhile p s with c :: _ => p c = false | [] => True end.
Proof.
  induction s as [|c r IH]; [exact I|]. simpl.
  destruct (p c) eqn:E; [exact IH | exact E].
Qed.

Lemma dropWhile_snoc p l c :
  p c = false -> dropWhile p (l ++ [c]) = dropWhile p l ++ [c].
Proof.
  intros E. induction l as [|d l IH]; simpl.
  - now rewrite E.
  - destruct (p d); [exact IH | reflexivity].
Qed.

Lemma firstn_app_exact (w rest : str) : firstn (length w) (w ++ rest) = w.
Proof.
  rewrite firstn_app, Nat.sub_diag, firstn_all. simpl. apply app_nil_r.
Qed.

Lemma skipn_app_exact (w rest : str) : skipn (length w) (w ++ rest) = rest.
Proof.
  rewrite skipn_app, Nat.sub_diag, skipn_all. reflexivity.
Qed.

(** ** The hashtag pattern *)


Lemma startsWordHyphen_dropWhile s :
  startsWordHyphen (dropWhile isWordHyphen s) = false.
Proof.
  pose proof (dropWhile_head isWordHyphen s) as E.
  destruct (dropWhile isWordHyphen s); [reflexivity | exact E].
Qed.

Lemma takeWhile_nil_iff s :
  takeWhile isWordHyphen s = [] <-> startsWordHyphen s = false.
Proof.
  destruct s as [|c r]; simpl; [tauto|].
  destruct (isWordHyphen c); split; congruence.
Qed.

Lemma scan_viewP s : scan_view s.
Proof.
  destruct s as [|c r]; [constructor|].
  destruct (re_hashtag (c :: r)) eqn:E; [now constructor|].
  simpl in E. destruct (c =? HASH)%N eqn:Ec; [|discriminate].
  apply N.eqb_eq in Ec. subst c.
  rewrite <- (takeWhile_dropWhile isWordHyphen r).
  apply sv_token.
  - intros Hnil. rewrite Hnil in E. discriminate.
  - apply takeWhile_all.
  - apply startsWordHyphen_dropWhile.
Qed.

Lemma re_hashtag_token w rest :
  w <> [] -> forallb isWordHyphen w = true -> startsWordHyphen rest = false ->
  re_hashtag (HASH :: w ++ rest) = S (length w).
Proof.
  intros Hw Hall Hrest. simpl.
  rewrite (takeWhile_app_all _ _ _ Hall).
  apply takeWhile_nil_iff in Hrest. rewrite Hrest, app_nil_r.
  destruct w; [congruence | reflexivity].
Qed.

Lemma re_hashtag_not_hash c r : c <> HASH -> re_hashtag (c :: r) = O.
Proof.
  intros Hc. simpl. apply N.eqb_neq in Hc. now rewrite Hc.
Qed.

(** Whether the pattern matches at a position depends on the tail only
    through its leading run of [[\w-]]. *)
Lemma re_hashtag_tail c r1 r2 :
  takeWhile isWordHyphen r1 = takeWhile isWordHyphen r2 ->
  re_hashtag (c :: r1) = re_hashtag (c :: r2).
Proof. intros E. simpl. now rewrite E. Qed.

Lemma replace_hashtag_plain cb c r :
  re_hashtag (c :: r) = O ->
  replace re_hashtag cb (c :: r) = c :: replace re_hashtag cb r.
Proof. intros E. now rewrite replace_cons, E. Qed.

Lemma replace_hashtag_token cb w rest :
  w <> [] -> forallb isWordHyphen w = true -> startsWordHyphen rest = false ->
  replace re_hashtag cb (HASH :: w ++ rest)
  = cb (HASH :: w) ++ replace re_hashtag cb rest.
Proof.
  intros Hw Hall Hrest.
  rewrite replace_cons, (re_hashtag_token _ _ Hw Hall Hrest).
  cbn [firstn]. now rewrite firstn_app_exact, skipn_app_exact.
Qed.

Lemma lastUnit_cons prev prev' c s : lastUnit prev (c :: s) = lastUnit prev' (c :: s).
Proof.
  unfold lastUnit. simpl. destruct (rev s ++ [c]) eqn:E; [|reflexivity].
  now apply app_eq_nil in E as [_ E].
Qed.

Lemma occurrences_hashtag_plain prev c r :
  re_hashtag (c :: r) = O ->
  occurrencesFrom re_hashtag prev (c :: r) = occurrencesFrom re_hashtag (Some c) r.
Proof. intros E. now rewrite occurrencesFrom_cons, E. Qed.

Lemma occurrences_hashtag_token prev w rest :
  w <> [] -> forallb isWordHyphen w = true -> startsWordHyphen rest = false ->
  occurrencesFrom re_hashtag prev (HASH :: w ++ rest)
  = (prev, HASH :: w)
      :: occurrencesFrom re_hashtag (lastUnit None (HASH :: w)) rest.
Proof.
  intros Hw Hall Hrest.
  rewrite occurrencesFrom_cons, (re_hashtag_token _ _ Hw Hall Hrest).
  cbn [firstn]. rewrite firstn_app_exact, skipn_app_exact.
  now rewrite (lastUnit_cons prev None).
Qed.

Lemma matches_hashtag_plain c r :
  re_hashtag (c :: r) = O -> matches re_hashtag (c :: r) = matches re_hashtag r.
Proof. intros E. now rewrite matches_cons, E. Qed.

Lemma matches_hashtag_token w rest :
  w <> [] -> forallb isWordHyphen w = true -> startsWordHyphen rest = false ->
  matches re_hashtag (HASH :: w ++ rest) = (HASH :: w) :: matches re_hashtag rest.
Proof.
  intros Hw Hall Hrest.
  rewrite matches_cons, (re_hashtag_token _ _ Hw Hall Hrest).
  cbn [firstn]. now rewrite firstn_app_exact, skipn_app_exact.
Qed.

Lemma token_length_lt (w rest : str) : (length rest < length (HASH :: w ++ rest))%nat.
Proof. simpl. rewrite length_app. lia. Qed.

(** ** The escaper *)
Section Escaper.
Context {H : Host}.
Variable validLabels : list str.

Local Abbreviation esc := (Hashtags.escapeInvalidHashtags validLabels).
Local Abbreviation escapeMatch := (Hashtags.escapeMatch validLabels).
Local Abbreviation isValid tok := (Hashtags.isValidLabel validLabels (skipn 1 tok)).

Lemma esc_plain c r : re_hashtag (c :: r) = O -> esc (c :: r) = c :: esc r.
Proof. apply replace_hashtag_plain. Qed.

Lemma esc_token w rest :
  w <> [] -> forallb isWordHyphen w = true -> startsWordHyphen rest = false ->
  esc (HASH :: w ++ rest) = escapeMatch (HASH :: w) ++ esc rest.
Proof. apply replace_hashtag_token. Qed.

Lemma escapeMatch_cases tok :
  escapeMatch tok = if isValid tok then tok else BACKSLASH :: tok.
Proof. reflexivity. Qed.

Lemma isWordHyphen_hash : isWordHyphen HASH = false.
Proof. reflexivity. Qed.

Lemma isWordHyphen_backslash : isWordHyphen BACKSLASH = false.
Proof. reflexivity. Qed.

(** Escaping leaves the leading run of [[\w-]] of a text as it is. *)
Lemma takeWhile_esc s : takeWhile isWordHyphen (esc s) = takeWhile isWordHyphen s.
Proof.
  destruct (scan_viewP s) as [|c r E|w rest Hw Hall Hrest].
  - reflexivity.
  - rewrite (esc_plain _ _ E). simpl.
    destruct (isWordHyphen c) eqn:Ec; [|reflexivity]. f_equal.
    clear E Ec c. induction r as [|d r IH]; [reflexivity|].
    destruct (isWordHyphen d) eqn:Ed.
    + assert (Hd : d <> HASH) by (intros ->; now rewrite isWordHyphen_hash in Ed).
      rewrite (esc_plain _ _ (re_hashtag_not_hash _ _ Hd)). simpl.
      now rewrite Ed, IH.
    + remember (d :: r) as t eqn:Et.
      destruct (scan_viewP t) as [|d' r' E|w rest Hw Hall Hrest].
      * discriminate.
      * injection Et as -> ->. rewrite (esc_plain _ _ E). simpl. now rewrite Ed.
      * injection Et as <- _. rewrite (esc_token _ _ Hw Hall Hrest), escapeMatch_cases.
        destruct (isValid (HASH :: w)); reflexivity.
  - rewrite (esc_token _ _ Hw Hall Hrest), escapeMatch_cases.
    destruct (isValid (HASH :: w)); reflexivity.
Qed.

Lemma startsWordHyphen_esc s : startsWordHyphen (esc s) = startsWordHyphen s.
Proof.
  pose proof (takeWhile_esc s) as E.
  destruct (startsWordHyphen s) eqn:Es.
  - destruct (startsWordHyphen (esc s)) eqn:Ee; [reflexivity|].
    apply takeWhile_nil_iff in Ee. rewrite Ee in E. symmetry in E.
    apply takeWhile_nil_iff in E. congruence.
  - apply takeWhile_nil_iff. rewrite E. now apply takeWhile_nil_iff.
Qed.


Lemma esc_occurrences :
  forall s prev,
    occurrencesFrom re_hashtag prev (esc s)
    = map (afterEscape validLabels) (occurrencesFrom re_hashtag prev s).
Proof.
  induction s as [s IH] using str_length_ind. intros prev.
  destruct (scan_viewP s) as [|c r E|w rest Hw Hall Hrest].
  - reflexivity.
  - rewrite (esc_plain _ _ E), (occurrences_hashtag_plain prev c r E).
    rewrite occurrences_hashtag_plain.
    + apply IH. simpl; lia.
    + rewrite <- E. apply re_hashtag_tail, takeWhile_esc.
  - rewrite (esc_token _ _ Hw Hall Hrest), escapeMatch_cases.
    rewrite (occurrences_hashtag_token prev _ _ Hw Hall Hrest).
    assert (Hesc : startsWordHyphen (esc rest) = false)
      by now rewrite startsWordHyphen_esc.
    cbn [map]. unfold afterEscape at 1. cbn [fst snd].
    destruct (isValid (HASH :: w)) eqn:Ev.
    + cbn [app]. rewrite (occurrences_hashtag_token prev _ _ Hw Hall Hesc).
      f_equal. apply IH, token_length_lt.
    + change ((BACKSLASH :: HASH :: w) ++ esc rest)
        with (BACKSLASH :: HASH :: w ++ esc rest).
      rewrite occurrences_hashtag_plain
        by (apply re_hashtag_not_hash; discriminate).
      rewrite (occurrences_hashtag_token _ _ _ Hw Hall Hesc).
      f_equal. apply IH, token_length_lt.
Qed.

Lemma esc_matches s : matches re_hashtag (esc s) = matches re_hashtag s.
Proof.
  unfold matches, occurrences. rewrite esc_occurrences, map_map.
  apply map_ext. now intros [p tok].
Qed.


Lemma esc_length s : length (esc s) = (length s + invalidCount validLabels s)%nat.
Proof.
  unfold invalidCount.
  induction s as [s IH] using str_length_ind.
  destruct (scan_viewP s) as [|c r E|w rest Hw Hall Hrest].
  - reflexivity.
  - rewrite (esc_plain _ _ E), (matches_hashtag_plain _ _ E). simpl.
    rewrite IH by (simpl; lia). reflexivity.
  - rewrite (esc_token _ _ Hw Hall Hrest), escapeMatch_cases.
    rewrite (matches_hashtag_token _ _ Hw Hall Hrest). cbn [filter].
    rewrite length_app, (IH rest) by apply token_length_lt.
    destruct (isValid (HASH :: w)); simpl; rewrite !length_app; lia.
Qed.

Lemma esc_fixed s : invalidCount validLabels s = O -> esc s = s.
Proof.
  unfold invalidCount.
  induction s as [s IH] using str_length_ind.
  destruct (scan_viewP s) as [|c r E|w rest Hw Hall Hrest]; intros Hk.
  - reflexivity.
  - rewrite (matches_hashtag_plain _ _ E) in Hk.
    rewrite (esc_plain _ _ E), IH; [reflexivity | simpl; lia | exact Hk].
  - rewrite (matches_hashtag_token _ _ Hw Hall Hrest) in Hk. cbn [filter] in Hk.
    rewrite (esc_token _ _ Hw Hall Hrest), escapeMatch_cases.
    destruct (isValid (HASH :: w)); [|discriminate]. cbn [negb] in Hk.
    rewrite IH; [reflexivity | apply token_length_lt | exact Hk].
Qed.

Lemma invalidCount_zero_iff s :
  invalidCount validLabels s = O
  <-> forallb (fun tok => isValid tok) (matches re_hashtag s) = true.
Proof.
  unfold invalidCount. induction (matches re_hashtag s) as [|tok l IH].
  - simpl. tauto.
  - cbn [filter forallb]. destruct (isValid tok); cbn [negb andb].
    + exact IH.
    + split; discriminate.
Qed.
End Escaper.


Lemma re_hashtag_gap c g x : re_hashtag (c :: g ++ x) = O -> re_hashtag (c :: g) = O.
Proof.
  simpl. destruct (c =? HASH)%N; [|reflexivity].
  destruct g as [|d g]; [reflexivity|]. simpl.
  destruct (isWordHyphen d); [discriminate | reflexivity].
Qed.

Lemma startsWordHyphen_prefix g x :
  startsWordHyphen (g ++ x) = false -> startsWordHyphen g = false.
Proof. destruct g; [reflexivity | exact id]. Qed.

Lemma str_eqb_refl s : str_eqb s s = true.
Proof. induction s as [|c s IH]; [reflexivity|]. simpl. now rewrite N.eqb_refl. Qed.

Lemma str_eqb_eq a b : str_eqb a b = true <-> a = b.
Proof.
  split; [|intros ->; apply str_eqb_refl].
  revert b. induction a as [|x a IH]; intros [|y b]; simpl; try discriminate; [reflexivity|].
  intros E. apply andb_true_iff in E as [Ex E]. apply N.eqb_eq in Ex.
  f_equal; [exact Ex | exact (IH _ E)].
Qed.

(** C8: escapeInvalidHashtags changes nothing but the spans matched by
    [#[\w-]+].  Every text splits, in one left-to-right pass, into a leading
    gap and a sequence of (matched span, following gap): the spans are the
    matches of the pattern, in order and without overlap; each is of the
    shape [#[\w-]+] and as long as it can be (the gap after it does not go
    on with a word or hyphen character); no gap contains a match.  The
    output is the same sequence with every gap unchanged and every span
    either unchanged or prefixed by the marker.  In particular a text
    without any match is returned verbatim. *)
Theorem escapeInvalidHashtags_frame {H : Host} (validLabels : list str) (s : str) :
  (exists (g0 : str) (ps : list (str * str)),
      s = g0 ++ concat (map (fun p => fst p ++ snd p) ps)
      /\ Hashtags.escapeInvalidHashtags validLabels s
         = g0 ++ concat (map (fun p => Hashtags.escapeMatch validLabels (fst p) ++ snd p) ps)
      /\ map fst ps = matches re_hashtag s
      /\ matches re_hashtag g0 = []
      /\ Forall (fun p =>
                   isHashtagToken (fst p) = true
                   /\ (Hashtags.escapeMatch validLabels (fst p) = fst p
                       \/ Hashtags.escapeMatch validLabels (fst p) = BACKSLASH :: fst p)
                   /\ matches re_hashtag (snd p) = []
                   /\ startsWordHyphen (snd p) = false) ps)
  /\ (matches re_hashtag s = [] -> Hashtags.escapeInvalidHashtags validLabels s = s).
Proof.
  split.
  - induction s as [s IH] using str_length_ind.
    destruct (scan_viewP s) as [|c r E|w rest Hw Hall Hrest].
    + exists [], []. repeat split; constructor.
    + destruct (IH r) as (g0 & ps & Hs & He & Hm & Hg & Hps); [simpl; lia|].
      exists (c :: g0), ps. repeat split.
      * simpl. now rewrite <- Hs.
      * rewrite (esc_plain _ _ _ E), He. reflexivity.
      * now rewrite (matches_hashtag_plain _ _ E).
      * rewrite matches_hashtag_plain; [exact Hg|].
        rewrite Hs in E. exact (re_hashtag_gap _ _ _ E).
      * exact Hps.
    + destruct (IH rest) as (g0 & ps & Hs & He & Hm & Hg & Hps);
        [apply token_length_lt|].
      exists [], ((HASH :: w, g0) :: ps). repeat split.
      * cbn [app map concat fst snd]. rewrite <- app_assoc, <- Hs. reflexivity.
      * rewrite (esc_token _ _ _ Hw Hall Hrest), He.
        cbn [app map concat fst snd]. now rewrite <- app_assoc.
      * rewrite (matches_hashtag_token _ _ Hw Hall Hrest). cbn [map fst].
        now rewrite Hm.
      * constructor; [|exact Hps]. cbn [fst snd]. repeat split.
        -- simpl. rewrite Hall. destruct w; [congruence | reflexivity].
        -- rewrite escapeMatch_cases.
           destruct (Hashtags.isValidLabel validLabels (skipn 1 (HASH :: w)));
             [now left | now right].
        -- exact Hg.
        -- rewrite Hs in Hrest. exact (startsWordHyphen_prefix _ _ Hrest).
  - intros Hm. apply esc_fixed. unfold invalidCount. now rewrite Hm.
Qed.

(** A text whose [#] are followed by no word or hyphen character. *)
Lemma escapeInvalidHashtags_frame_witness :
  matches re_hashtag (js "C# is # 1") = []
  /\ Hashtags.escapeInvalidHashtags (H := utcHost) [] (js "C# is # 1") = js "C# is # 1".
Proof.
  split; [reflexivity|].
  apply (escapeInvalidHashtags_frame (H := utcHost) [] (js "C# is # 1")).
  reflexivity.
Defined.

(** C2 (as the code has it): a second application escapes again.  The
    escaper is idempotent on a text exactly when every span matched in it is
    a valid label; on any other text each invalid span carries two markers
    after the second pass. *)
Theorem escapeInvalidHashtags_twice {H : Host} (validLabels : list str) (t : str) :
  (Hashtags.escapeInvalidHashtags validLabels (Hashtags.escapeInvalidHashtags validLabels t)
   = Hashtags.escapeInvalidHashtags validLabels t
   <-> forallb (fun tok => Hashtags.isValidLabel validLabels (skipn 1 tok))
         (matches re_hashtag t) = true)
  /\ length (Hashtags.escapeInvalidHashtags validLabels
               (Hashtags.escapeInvalidHashtags validLabels t))
     = (length t + 2 * invalidCount validLabels t)%nat.
Proof.
  assert (Hk : invalidCount validLabels (Hashtags.escapeInvalidHashtags validLabels t)
               = invalidCount validLabels t)
    by (unfold invalidCount; now rewrite esc_matches).
  split; [split|].
  - intros E. apply invalidCount_zero_iff.
    apply (f_equal (@length _)) in E. rewrite !esc_length, Hk in E. lia.
  - intros E. apply invalidCount_zero_iff in E.
    rewrite (esc_fixed _ _ E). exact (esc_fixed _ _ E).
  - rewrite !esc_length, Hk. lia.
Qed.

(** With [Personal] a valid label, [see #personal] is a fixed point. *)
Lemma escapeInvalidHashtags_twice_witness :
  Hashtags.escapeInvalidHashtags (H := utcHost) [js "Personal"]
    (Hashtags.escapeInvalidHashtags (H := utcHost) [js "Personal"] (js "see #personal"))
  = Hashtags.escapeInvalidHashtags (H := utcHost) [js "Personal"] (js "see #personal").
Proof.
  apply (escapeInvalidHashtags_twice (H := utcHost) [js "Personal"] (js "see #personal")).
  reflexivity.
Defined.

(** With no valid label, the second pass turns [\#anything] into
    [\\#anything], on any host. *)
Lemma escapeInvalidHashtags_not_idempotent :
  ~ exists H : Host,
      Hashtags.escapeInvalidHashtags []
        (Hashtags.escapeInvalidHashtags [] (js "Check #anything here"))
      = Hashtags.escapeInvalidHashtags [] (js "Check #anything here").
Proof. intros [H E]. vm_compute in E. discriminate. Qed.

(** C7: the Turndown based renderer returns the escaper's result on the
    trimmed Turndown text, so every span [#[\w-]+] of the rendered text is a
    valid label or stands right after the escape marker. *)
Theorem htmlToMarkdown_escapes_last {H : Host} (turndown : str -> str)
    (validLabels : list str) (htmlContent : str) :
  Hashtags.htmlToMarkdown turndown validLabels htmlContent
  = Hashtags.escapeInvalidHashtags validLabels (trim (turndown htmlContent))
  /\ Forall (fun occ =>
               fst occ = Some BACKSLASH
               \/ Hashtags.isValidLabel validLabels (skipn 1 (snd occ)) = true)
       (occurrences re_hashtag (Hashtags.htmlToMarkdown turndown validLabels htmlContent)).
Proof.
  split; [reflexivity|].
  unfold Hashtags.htmlToMarkdown, occurrences. rewrite esc_occurrences.
  apply Forall_map, Forall_forall. intros [p tok] _. unfold afterEscape. cbn [fst snd].
  destruct (Hashtags.isValidLabel validLabels (skipn 1 tok)); [now right | now left].
Qed.

(** C4: with no valid label every hashtag of a text is escaped: each span
    the pattern finds gets the marker in front, so the spans themselves
    are kept and each stands right after a marker in the result.  So
    [#anything] is escaped in [Check #anything here]; with a label whose
    comparison form is [anything] in the set, that text passes unchanged. *)
Theorem escapeInvalidHashtags_fail_closed {H : Host} (validLabels : list str)
    (label : str) :
  In label validLabels ->
  Hashtags.labelAsHashtag label = js "anything" ->
  (forall content,
      Hashtags.escapeInvalidHashtags [] content
      = replace re_hashtag (fun hashtag => BACKSLASH :: hashtag) content
      /\ matches re_hashtag (Hashtags.escapeInvalidHashtags [] content)
         = matches re_hashtag content
      /\ Forall (fun occ => fst occ = Some BACKSLASH)
           (occurrences re_hashtag (Hashtags.escapeInvalidHashtags [] content)))
  /\ Hashtags.escapeInvalidHashtags [] (js "Check #anything here")
     = js "Check \#anything here"
  /\ Hashtags.escapeInvalidHashtags validLabels (js "Check #anything here")
     = js "Check #anything here".
Proof.
  intros Hin Hlabel. split; [|split; [reflexivity|]].
  - intros content. split; [reflexivity|]. split; [apply esc_matches|].
    unfold occurrences. rewrite esc_occurrences.
    apply Forall_map, Forall_forall. now intros [prev hashtag] _.
  - apply esc_fixed. unfold invalidCount.
    change (matches re_hashtag (js "Check #anything here")) with [js "#anything"].
    cbn [filter].
    replace (Hashtags.isValidLabel validLabels (skipn 1 (js "#anything"))) with true;
      [reflexivity|].
    symmetry. apply existsb_exists. exists label. split; [exact Hin|].
    rewrite Hlabel. reflexivity.
Qed.

(** The labels loaded from [labelsTxt] hold [anything]. *)
Lemma escapeInvalidHashtags_fail_closed_witness :
  Hashtags.escapeInvalidHashtags (H := utcHost) [] (js "Check #anything here")
  = js "Check \#anything here"
  /\ Hashtags.escapeInvalidHashtags (H := utcHost)
       (Hashtags.loadValidLabels (Some labelsTxt)) (js "Check #anything here")
     = js "Check #anything here".
Proof.
  apply (escapeInvalidHashtags_fail_closed (H := utcHost)
           (Hashtags.loadValidLabels (Some labelsTxt)) (js "anything")).
  - right. now left.
  - reflexivity.
Defined.

(** ** Trimming and the assembled document *)

Lemma trim_no_leading_space s : startsWithSpace (trim s) = false.
Proof.
  unfold trim, trimEnd, trimStart.
  pose proof (dropWhile_head isSpace s) as Hd.
  destruct (dropWhile isSpace s) as [|c a]; [reflexivity|].
  simpl rev. rewrite (dropWhile_snoc _ _ _ Hd), rev_unit. exact Hd.
Qed.

Lemma trim_no_trailing_space s : endsWithSpace (trim s) = false.
Proof.
  unfold endsWithSpace, trim, trimEnd. rewrite rev_involutive.
  pose proof (dropWhile_head isSpace (rev (trimStart s))) as Hd.
  destruct (dropWhile isSpace (rev (trimStart s))); [reflexivity | exact Hd].
Qed.

Lemma endsWithNewline_space s : endsWithNewline s = true -> endsWithSpace s = true.
Proof.
  unfold endsWithNewline, endsWithSpace.
  destruct (rev s) as [|c r]; [discriminate|]. simpl.
  intros E. apply N.eqb_eq in E. now subst c.
Qed.

Lemma trim_no_trailing_newline s : endsWithNewline (trim s) = false.
Proof.
  destruct (endsWithNewline (trim s)) eqn:E; [|reflexivity].
  apply endsWithNewline_space in E. now rewrite trim_no_trailing_space in E.
Qed.

Lemma endsWithNewline_app a b :
  endsWithNewline (a ++ b) = match b with [] => endsWithNewline a | _ => endsWithNewline b end.
Proof.
  unfold endsWithNewline. rewrite rev_app_distr.
  destruct b as [|c b]; [reflexivity|]. simpl rev.
  destruct (rev b ++ [c]) eqn:E; [now apply app_eq_nil in E as [_ E] | reflexivity].
Qed.


Lemma closedSection_app x y : closedSection x -> closedSection y -> closedSection (x ++ y).
Proof.
  intros Hx [-> | Hy]; [now rewrite app_nil_r|].
  right. rewrite endsWithNewline_app. destruct y; [discriminate | exact Hy].
Qed.

Lemma closedSection_nl x : closedSection (x ++ nl).
Proof. right. now rewrite endsWithNewline_app. Qed.

Lemma closed_after_nl pre x : closedSection x -> endsWithNewline (pre ++ nl ++ x) = true.
Proof.
  intros Hx. rewrite app_assoc.
  destruct (closedSection_app _ _ (closedSection_nl pre) Hx) as [E | E]; [|exact E].
  destruct pre; discriminate.
Qed.

Section Assembly.
Context {H : Host}.

Lemma contentSection_closed content : closedSection (contentSection content).
Proof.
  unfold contentSection.
  destruct (truthy content && truthy (trim content)); [|now left].
  rewrite app_assoc. apply closedSection_nl.
Qed.

Lemma attachmentLine_closed fileName : endsWithNewline (attachmentLine fileName) = true.
Proof.
  unfold attachmentLine. destruct (isImage fileName).
  - rewrite !app_assoc. now rewrite endsWithNewline_app.
  - rewrite !app_assoc. now rewrite endsWithNewline_app.
Qed.

Lemma attachmentLines_closed names : closedSection (concat (map attachmentLine names)).
Proof.
  induction names as [|n names IH]; [now left|]. simpl.
  apply closedSection_app; [right; apply attachmentLine_closed | exact IH].
Qed.

Lemma attachmentsSection_closed names : closedSection (attachmentsSection names).
Proof.
  unfold attachmentsSection. destruct names as [|n names]; [now left|].
  rewrite app_assoc. right. rewrite app_assoc.
  destruct (closedSection_app _ _ (closedSection_nl (js "## Attachments" ++ nl))
              (attachmentLines_closed (n :: names))) as [E | E]; [discriminate | exact E].
Qed.

Lemma createdMarker_cases jsonData :
  match createdMarker jsonData with
  | Some marker => closedSection marker
  | None => exists ts, hasTimestamp jsonData = Some ts /\ newDate ts = None
  end.
Proof.
  unfold createdMarker. destruct (hasTimestamp jsonData) as [ts|]; [|now left].
  destruct (newDate ts) eqn:E; cbn [toISOString option_map].
  - rewrite !app_assoc. apply closedSection_nl.
  - now exists ts.
Qed.

Lemma generateDisplayTitle_cases jsonData :
  match generateDisplayTitle jsonData with
  | Some _ => True
  | None => exists ts, hasTimestamp jsonData = Some ts /\ newDate ts = None
  end.
Proof.
  unfold generateDisplayTitle. destruct (hasTimestamp jsonData) as [ts|].
  - destruct (newDate ts) eqn:E; cbn [toISOString option_map].
    + now destruct (hasText (title jsonData)).
    + now exists ts.
  - now destruct (hasText (title jsonData)).
Qed.

Lemma trimmedResult_intro jsonData pre tail :
  closedSection tail ->
  trimmedResult jsonData (Some (pre ++ nl ++ tail)) (Some (trim (pre ++ nl ++ tail))).
Proof.
  intros Ht. unfold trimmedResult. repeat split.
  - now apply closed_after_nl.
  - apply trim_no_leading_space.
  - apply trim_no_trailing_space.
  - apply trim_no_trailing_newline.
Qed.

(** C10: the document [generateMarkdown] returns is the assembled text
    trimmed: although that text always ends with a newline, the document
    starts and ends with no white space and so never ends with a newline.
    This holds for both converters; the only notes for which no document
    is returned are those whose timestamp gives an Invalid Date. *)
Theorem generateMarkdown_trimmed (validLabels : list str) (jsonData : KeepNote)
    (content : str) (copiedAttachments : list str) :
  trimmedResult jsonData
    (Hashtags.assembleMarkdown validLabels jsonData content copiedAttachments)
    (Hashtags.generateMarkdown validLabels jsonData content copiedAttachments)
  /\ trimmedResult jsonData
       (Frontmatter.assembleMarkdown jsonData content copiedAttachments)
       (Frontmatter.generateMarkdown jsonData content copiedAttachments).
Proof.
  unfold Hashtags.generateMarkdown, Frontmatter.generateMarkdown,
    Hashtags.assembleMarkdown, Frontmatter.assembleMarkdown.
  pose proof (generateDisplayTitle_cases jsonData) as Ht.
  pose proof (createdMarker_cases jsonData) as Hm.
  assert (Htail : forall marker, closedSection marker ->
            closedSection (contentSection content
                             ++ attachmentsSection copiedAttachments ++ marker)).
  { intros marker Hc. apply closedSection_app; [apply contentSection_closed|].
    apply closedSection_app; [apply attachmentsSection_closed | exact Hc]. }
  destruct (generateDisplayTitle jsonData) as [displayTitle|];
    [|split; exact Ht].
  destruct (createdMarker jsonData) as [marker|]; [|split; exact Hm].
  cbn [option_map]. split.
  - set (tail := contentSection content ++ attachmentsSection copiedAttachments ++ marker).
    replace (js "# " ++ Hashtags.escapeInvalidHashtags validLabels displayTitle ++ nl ++ nl
               ++ joinSpace (Hashtags.generateHashtags jsonData) ++ nl ++ nl ++ tail)
      with ((js "# " ++ Hashtags.escapeInvalidHashtags validLabels displayTitle ++ nl ++ nl
               ++ joinSpace (Hashtags.generateHashtags jsonData) ++ nl) ++ nl ++ tail)
      by (now rewrite <- !app_assoc).
    apply trimmedResult_intro, Htail, Hm.
  - set (tail := contentSection content ++ attachmentsSection copiedAttachments ++ marker).
    set (tags := concat (map (fun tag => js "  - " ++ tag ++ nl) (Frontmatter.yamlTags jsonData))).
    replace (js "---" ++ nl ++ js "tags:" ++ nl ++ tags ++ js "---" ++ nl ++ nl
               ++ js "# " ++ displayTitle ++ nl ++ nl ++ tail)
      with ((js "---" ++ nl ++ js "tags:" ++ nl ++ tags ++ js "---" ++ nl ++ nl
               ++ js "# " ++ displayTitle ++ nl) ++ nl ++ tail)
      by (now rewrite <- !app_assoc).
    apply trimmedResult_intro, Htail, Hm.
Qed.
End Assembly.

(** ** Label normalisation on the README's label *)

(** C1 (as the code has it): for every namespace root the front-matter
    normaliser maps [Reference - Linux/Tech] to the root followed by
    [reference/linux-&-tech]: the slash becomes [ & ] before [ - ] becomes
    [/], white space runs become hyphens, the result is lowercased.  The
    hashtag normaliser writes [ and ] for the slash but [-] for [ - ]:
    [#reference-linux-and-tech]. *)
Theorem labelTag_reference_linux_tech {H : Host} (root : str) :
  Frontmatter.labelTag root (js "Reference - Linux/Tech")
  = root ++ js "reference/linux-&-tech"
  /\ Hashtags.labelHashtag (js "Reference - Linux/Tech")
     = js "#reference-linux-and-tech".
Proof. split; reflexivity. Qed.

(** Neither converter gives [reference/linux-and-tech] after its root, on
    any host. *)
Lemma labelTag_reference_linux_tech_not_and :
  ~ exists H : Host,
      Frontmatter.labelTag Frontmatter.tagPrefix (js "Reference - Linux/Tech")
      = Frontmatter.tagPrefix ++ js "reference/linux-and-tech"
      \/ Hashtags.labelHashtag (js "Reference - Linux/Tech")
         = js "#" ++ js "reference/linux-and-tech".
Proof. intros [H [E | E]]; vm_compute in E; discriminate. Qed.

(** ** Titles and file names *)

(** C6: the date of the display title is read in UTC and its [.HH.MM] in
    the local time of the process.  The titled note gives
    [2024-03-15 - Dinner Plans] on every host; the untitled one gives
    [2024-03-15.18.30] on a host at UTC and [2024-03-15.05.30] on a host at
    UTC+11, the UTC date next to the local time of the following day. *)
Theorem generateDisplayTitle_local_time :
  (forall H : Host,
      generateDisplayTitle dinnerPlans = Some (js "2024-03-15 - Dinner Plans"))
  /\ (forall H : Host,
        generateDisplayTitle untitledNote
        = Some (js "2024-03-15." ++ padStart0 2 (numberToString (getHours 1710527400000))
                  ++ js "." ++ padStart0 2 (numberToString (getMinutes 1710527400000))))
  /\ generateDisplayTitle (H := utcHost) untitledNote = Some (js "2024-03-15.18.30")
  /\ generateDisplayTitle (H := sydneyHost) untitledNote = Some (js "2024-03-15.05.30").
Proof. repeat split. Qed.

Lemma forallb_dropWhile (p q : codeunit -> bool) s :
  forallb p s = true -> forallb p (dropWhile q s) = true.
Proof.
  induction s as [|c r IH]; [reflexivity|]. simpl.
  intros E. apply andb_true_iff in E as [Ec Er].
  destruct (q c); [now apply IH | simpl; now rewrite Ec, Er].
Qed.

Lemma forallb_rev (p : codeunit -> bool) s : forallb p (rev s) = forallb p s.
Proof.
  induction s as [|c r IH]; [reflexivity|]. simpl.
  rewrite forallb_app, IH. simpl. rewrite andb_true_r. apply andb_comm.
Qed.

Lemma forallb_trim (p : codeunit -> bool) s : forallb p s = true -> forallb p (trim s) = true.
Proof.
  intros E. unfold trim, trimEnd, trimStart.
  rewrite forallb_rev. apply forallb_dropWhile. rewrite forallb_rev.
  now apply forallb_dropWhile.
Qed.

(** Deleting the matches of a one-unit class is filtering. *)
Lemma replace_class_delete (p : codeunit -> bool) s :
  replaceWith (m_class p) [] s = filter (fun c => negb (p c)) s.
Proof.
  unfold replaceWith. induction s as [|c r IH]; [reflexivity|].
  rewrite replace_cons. simpl. destruct (p c); simpl; now rewrite IH.
Qed.

Lemma filter_none (p : codeunit -> bool) s :
  forallb p s = true -> filter (fun c => negb (p c)) s = [].
Proof.
  induction s as [|c r IH]; [reflexivity|]. simpl.
  intros E. apply andb_true_iff in E as [-> Er]. now apply IH.
Qed.

Lemma filter_all (p : codeunit -> bool) s :
  forallb p s = true -> filter p s = s.
Proof.
  induction s as [|c r IH]; [reflexivity|]. simpl.
  intros E. apply andb_true_iff in E as [-> Er]. now rewrite IH.
Qed.

(** C9: a title that is not blank but holds only characters outside
    [[\w\s-]] loses all of them, and the file name is the bare [.md]: the
    date based name and [untitled-note] are not used. *)
Theorem generateFileName_symbols_only {H : Host} (jsonData : KeepNote) (t : str) :
  title jsonData = Some t ->
  trim t <> [] ->
  forallb (fun c => negb (isWord c || isSpace c || (c =? HYPHEN)%N)) t = true ->
  generateFileName jsonData = Some (js ".md").
Proof.
  intros Ht Hne Hall. unfold generateFileName. rewrite Ht.
  assert (Htext : hasText (Some t) = true).
  { unfold hasText. destruct (trim t) eqn:Et; [congruence|].
    destruct t; [discriminate | reflexivity]. }
  rewrite Htext. unfold re_notWordSpaceHyphen.
  rewrite replace_class_delete, filter_none by now apply forallb_trim.
  reflexivity.
Qed.

(** The title [???]. *)
Lemma generateFileName_symbols_only_witness :
  generateFileName (H := utcHost) questionMarks = Some (js ".md").
Proof.
  apply (generateFileName_symbols_only (H := utcHost) questionMarks (js "???")).
  - reflexivity.
  - discriminate.
  - reflexivity.
Defined.

(** ** Text without runs of hyphens *)

Lemma not_hyphen_run_head c r :
  hyphenRun (c :: r) = false ->
  hyphenRun r = false /\ (c = HYPHEN -> takeWhile (fun d => (d =? HYPHEN)%N) r = []).
Proof.
  simpl. intros E. apply orb_false_iff in E as [E1 E2]. split; [exact E2|].
  intros ->. rewrite N.eqb_refl in E1. simpl in E1.
  destruct r as [|d r]; [reflexivity|]. simpl. now rewrite E1.
Qed.

(** Collapsing hyphen runs changes nothing where no two hyphens touch. *)
Lemma replace_hyphens_id s :
  hyphenRun s = false -> replaceWith re_hyphens (js "-") s = s.
Proof.
  unfold replaceWith, re_hyphens, m_plus.
  induction s as [|c r IH]; [reflexivity|].
  intros E. apply not_hyphen_run_head in E as [Er Ec].
  rewrite replace_cons. cbn [takeWhile].
  destruct (c =? HYPHEN)%N eqn:Eh.
  - apply N.eqb_eq in Eh. rewrite (Ec Eh). cbn [length skipn firstn].
    rewrite (IH Er). now subst c.
  - cbn [length]. now rewrite (IH Er).
Qed.

Lemma labelTag_steps (H : Host) root name :
  Frontmatter.labelTag root name
  = root ++ normalizerSteps34
              (replaceWith re_sep (js "/") (replaceWith re_slash (js " & ") name)).
Proof. reflexivity. Qed.

Lemma labelHashtag_steps (H : Host) name :
  Hashtags.labelHashtag name
  = js "#" ++ normalizerSteps34
                (replaceWith re_sep (js "-") (replaceWith re_slash (js " and ") name)).
Proof. reflexivity. Qed.

(** ** Letter case and surrounding white space of a label *)

Lemma isSpace_outside c : (32 < c)%N -> (c < 160)%N -> isSpace c = false.
Proof.
  intros Hlo Hhi. unfold isSpace.
  replace (c <=? 13)%N with false by (symmetry; apply N.leb_gt; lia).
  replace (c =? 32)%N with false by (symmetry; apply N.eqb_neq; lia).
  replace (c =? 160)%N with false by (symmetry; apply N.eqb_neq; lia).
  replace (c =? 5760)%N with false by (symmetry; apply N.eqb_neq; lia).
  replace (8192 <=? c)%N with false by (symmetry; apply N.leb_gt; lia).
  replace (c =? 8232)%N with false by (symmetry; apply N.eqb_neq; lia).
  replace (c =? 8233)%N with false by (symmetry; apply N.eqb_neq; lia).
  replace (c =? 8239)%N with false by (symmetry; apply N.eqb_neq; lia).
  replace (c =? 8287)%N with false by (symmetry; apply N.eqb_neq; lia).
  replace (c =? 12288)%N with false by (symmetry; apply N.eqb_neq; lia).
  replace (c =? 65279)%N with false by (symmetry; apply N.eqb_neq; lia).
  now rewrite andb_false_r.
Qed.

Lemma isUpper_bounds c : isUpper c = true -> (65 <= c <= 90)%N.
Proof.
  unfold isUpper. intros E. apply andb_true_iff in E as [E1 E2].
  apply N.leb_le in E1, E2. lia.
Qed.

Lemma isSpace_lowerUnit c : isSpace (lowerUnit c) = isSpace c.
Proof.
  unfold lowerUnit. destruct (isUpper c) eqn:E; [|reflexivity].
  apply isUpper_bounds in E. rewrite !isSpace_outside by lia. reflexivity.
Qed.

(** A unit that is no Basic Latin letter is found in a text wherever it is
    found in the lowercased text. *)
Lemma eqb_lowerUnit c x :
  isUpper c = false -> isLower c = false -> (c =? lowerUnit x)%N = (c =? x)%N.
Proof.
  intros Hu Hl. unfold lowerUnit. destruct (isUpper x) eqn:E; [|reflexivity].
  pose proof (isUpper_bounds _ E) as Hx.
  destruct (N.eqb_spec c x) as [-> | Hne]; [congruence|].
  apply N.eqb_neq. intros ->.
  unfold isLower in Hl. apply andb_false_iff in Hl as [Hl | Hl];
    apply N.leb_gt in Hl; lia.
Qed.






Lemma forallb_skipn (p : codeunit -> bool) n s :
  forallb p s = true -> forallb p (skipn n s) = true.
Proof.
  revert s. induction n as [|n IH]; intros s E; [exact E|].
  destruct s as [|c r]; [reflexivity|]. simpl in *.
  apply andb_true_iff in E as [_ E]. now apply IH.
Qed.

Lemma forallb_replaceWith (p : codeunit -> bool) (m : matcher) (lit : str) :
  forallb p lit = true ->
  forall s : str, forallb p s = true -> forallb p (replaceWith m lit s) = true.
Proof.
  intros Hlit. unfold replaceWith.
  induction s as [s IH] using str_length_ind. intros Hs.
  destruct s as [|c r]; [reflexivity|].
  rewrite replace_cons. simpl in Hs. apply andb_true_iff in Hs as [Hc Hr].
  destruct (m (c :: r)) as [|n].
  - simpl. rewrite Hc. apply IH; [simpl; lia | exact Hr].
  - rewrite forallb_app, Hlit. apply IH.
    + pose proof (skipn_length_le n r). simpl; lia.
    + now apply forallb_skipn.
Qed.

Lemma toLowerCase_ascii {H : Host} s : isAscii s = true -> toLowerCase s = map lowerUnit s.
Proof. intros E. unfold toLowerCase. now rewrite E. Qed.

Section CaseOfLabels.
Context {H : Host}.



Lemma rewriteLabel_ascii slash sep name :
  isAscii slash = true -> isAscii sep = true -> isAscii name = true ->
  isAscii (rewriteLabel slash sep name) = true.
Proof.
  intros Hsl Hsep Hname. unfold rewriteLabel, isAscii.
  apply forallb_replaceWith; [reflexivity|].
  apply forallb_replaceWith; [exact Hsep|].
  apply forallb_replaceWith; [exact Hsl | exact Hname].
Qed.


End CaseOfLabels.



(** * Further properties of the converters *)

(** ** More on replacing *)

Lemma forallb_filter_self (p : codeunit -> bool) s : forallb p (filter p s) = true.
Proof.
  induction s as [|c r IH]; [reflexivity|]. simpl.
  destruct (p c) eqn:E; [simpl; now rewrite E | exact IH].
Qed.

Lemma dropWhile_as_skipn (p : codeunit -> bool) s :
  skipn (length (takeWhile p s)) s = dropWhile p s.
Proof.
  induction s as [|c r IH]; [reflexivity|]. simpl.
  destruct (p c); [exact IH | reflexivity].
Qed.

Lemma takeWhile_as_firstn (p : codeunit -> bool) s :
  firstn (length (takeWhile p s)) s = takeWhile p s.
Proof.
  induction s as [|c r IH]; [reflexivity|]. simpl.
  destruct (p c); [simpl; now rewrite IH | reflexivity].
Qed.

Lemma replace_plus_cons (p : codeunit -> bool) cb c r :
  replace (m_plus p) cb (c :: r)
  = if p c then cb (c :: takeWhile p r) ++ replace (m_plus p) cb (dropWhile p r)
    else c :: replace (m_plus p) cb r.
Proof.
  rewrite replace_cons. unfold m_plus at 1. cbn [takeWhile].
  destruct (p c) eqn:E; [|reflexivity]. cbn [length firstn].
  now rewrite dropWhile_as_skipn, takeWhile_as_firstn.
Qed.

Lemma dropWhile_length_le (p : codeunit -> bool) s :
  (length (dropWhile p s) <= length s)%nat.
Proof.
  induction s as [|c r IH]; [simpl; lia|]. simpl.
  destruct (p c); simpl; lia.
Qed.

(** After a run pattern is replaced by a literal outside its class, no
    unit of the class is left, and what was there besides stays. *)
Lemma replaceWith_plus_forall (p q q' : codeunit -> bool) (lit : str) :
  (forall c, q c = true -> p c = false -> q' c = true) ->
  forallb q' lit = true ->
  forall s : str, forallb q s = true -> forallb q' (replaceWith (m_plus p) lit s) = true.
Proof.
  intros Hq Hlit. unfold replaceWith.
  induction s as [s IH] using str_length_ind. intros Hs.
  destruct s as [|c r]; [reflexivity|].
  rewrite replace_plus_cons. simpl in Hs. apply andb_true_iff in Hs as [Hc Hr].
  destruct (p c) eqn:E.
  - rewrite forallb_app, Hlit. apply IH.
    + pose proof (dropWhile_length_le p r). simpl; lia.
    + now apply forallb_dropWhile.
  - simpl. rewrite (Hq _ Hc E). apply IH; [simpl; lia | exact Hr].
Qed.

(** A literal that replaces every run of hyphens, or every run of a class
    in a text without hyphens, leaves no two hyphens side by side. *)
Lemma hyphenRun_cons_false c x :
  match x with d :: _ => (c =? HYPHEN)%N && (d =? HYPHEN)%N = false | [] => True end ->
  hyphenRun x = false -> hyphenRun (c :: x) = false.
Proof.
  intros Hh Hx. simpl. rewrite Hx, orb_false_r.
  destruct x as [|d x]; [apply andb_false_r | exact Hh].
Qed.

Lemma replaceWith_plus_no_hyphenRun (p : codeunit -> bool) :
  forall s : str,
    forallb (fun c => p c || negb (c =? HYPHEN)%N) s = true ->
    hyphenRun (replaceWith (m_plus p) (js "-") s) = false.
Proof.
  unfold replaceWith.
  induction s as [s IH] using str_length_ind. intros Hs.
  destruct s as [|c r]; [reflexivity|].
  rewrite replace_plus_cons. simpl in Hs. apply andb_true_iff in Hs as [Hc Hr].
  destruct (p c) eqn:E.
  - change (js "-" ++ ?x) with (HYPHEN :: x).
    assert (Hrest : forallb (fun c => p c || negb (c =? HYPHEN)%N) (dropWhile p r) = true)
      by now apply forallb_dropWhile.
    pose proof (dropWhile_length_le p r) as Hlen.
    apply hyphenRun_cons_false; [|apply IH; [simpl; lia | exact Hrest]].
    pose proof (dropWhile_head p r) as Hd.
    destruct (dropWhile p r) as [|d r']; [exact I|].
    rewrite replace_plus_cons, Hd.
    simpl in Hrest. rewrite Hd in Hrest. simpl in Hrest.
    apply andb_true_iff in Hrest as [Hd' _]. apply negb_true_iff in Hd'.
    now rewrite Hd'.
  - simpl in Hc. apply negb_true_iff in Hc.
    apply hyphenRun_cons_false; [|apply IH; [simpl; lia | exact Hr]].
    destruct (replace (m_plus p) (fun _ => js "-") r); [exact I|]. now rewrite Hc.
Qed.

(** ** Basic Latin by enumeration *)

Lemma ascii_check (P : codeunit -> bool) :
  forallb P asciiUnits = true -> forall c, (c < 128)%N -> P c = true.
Proof.
  intros Hall c Hc. rewrite forallb_forall in Hall. apply Hall.
  unfold asciiUnits. apply in_map_iff. exists (N.to_nat c). split.
  - apply N2Nat.id.
  - apply in_seq. lia.
Qed.

Lemma isWordHyphen_ascii c : isWordHyphen c = true -> (c < 128)%N.
Proof.
  unfold isWordHyphen, isWord, isAlnum, isLower, isUpper, isDigit, HYPHEN.
  intros E.
  repeat match type of E with
         | _ || _ = true => apply orb_true_iff in E as [E | E]
         end;
    try (apply andb_true_iff in E as [_ E]; apply N.leb_le in E; lia);
    apply N.eqb_eq in E; lia.
Qed.

Lemma forallb_impl (p q : codeunit -> bool) s :
  (forall c, p c = true -> q c = true) -> forallb p s = true -> forallb q s = true.
Proof.
  intros Hpq. induction s as [|c r IH]; [reflexivity|]. simpl.
  intros E. apply andb_true_iff in E as [Ec Er]. now rewrite (Hpq _ Ec), IH.
Qed.

Lemma forallb_const_true (p : codeunit -> bool) s :
  (forall c, p c = true) -> forallb p s = true.
Proof. intros Hp. induction s as [|c r IH]; [reflexivity|]. simpl. now rewrite Hp. Qed.

Lemma forallb_map_units (f : codeunit -> codeunit) (p : codeunit -> bool) s :
  forallb p (map f s) = forallb (fun c => p (f c)) s.
Proof. induction s as [|c r IH]; [reflexivity|]. simpl. now rewrite IH. Qed.

Lemma isWordHyphen_isAscii s : forallb isWordHyphen s = true -> isAscii s = true.
Proof.
  apply forallb_impl. intros c Hc. apply N.ltb_lt. now apply isWordHyphen_ascii.
Qed.

Lemma lowerUnit_wordHyphen c :
  isWordHyphen c = true -> isWordHyphen (lowerUnit c) = true.
Proof.
  intros Hc. pose proof (isWordHyphen_ascii _ Hc) as Hlt.
  pose proof (ascii_check (fun c => implb (isWordHyphen c) (isWordHyphen (lowerUnit c)))
                eq_refl c Hlt) as E.
  cbv beta in E. now rewrite Hc in E.
Qed.

Lemma lowerUnit_shape c :
  (isAlnum c || (c =? HYPHEN)%N) = true -> isLowerDigitHyphen (lowerUnit c) = true.
Proof.
  intros Hc.
  assert (Hw : isWordHyphen c = true).
  { unfold isWordHyphen, isWord. apply orb_true_iff in Hc as [-> | ->];
      [reflexivity | apply orb_true_r]. }
  pose proof (isWordHyphen_ascii _ Hw) as Hlt.
  pose proof (ascii_check
                (fun c => implb (isAlnum c || (c =? HYPHEN)%N)
                            (isLowerDigitHyphen (lowerUnit c))) eq_refl c Hlt) as E.
  cbv beta in E. now rewrite Hc in E.
Qed.

Lemma lowerUnit_idem c : lowerUnit (lowerUnit c) = lowerUnit c.
Proof.
  unfold lowerUnit at 2 3. destruct (isUpper c) eqn:E; [|unfold lowerUnit; now rewrite E].
  apply isUpper_bounds in E. unfold lowerUnit, isUpper.
  replace (c + 32 <=? 90)%N with false by (symmetry; apply N.leb_gt; lia).
  now rewrite andb_false_r.
Qed.

Lemma hyphen_lowerUnit c : (lowerUnit c =? HYPHEN)%N = (c =? HYPHEN)%N.
Proof.
  rewrite (N.eqb_sym (lowerUnit c)), (N.eqb_sym c). now apply eqb_lowerUnit.
Qed.

Lemma hyphenRun_lower s : hyphenRun (map lowerUnit s) = hyphenRun s.
Proof.
  induction s as [|c r IH]; [reflexivity|].
  cbn [map hyphenRun]. rewrite IH, hyphen_lowerUnit.
  destruct r as [|d r]; [reflexivity|]. cbn [map]. now rewrite hyphen_lowerUnit.
Qed.

(** ** The comparison form of a label *)
Section ComparisonForm.
Context {H : Host}.
Variable validLabels : list str.

Lemma labelAsHashtag_unfolded label :
  exists x,
    Hashtags.labelAsHashtag label = map lowerUnit x
    /\ forallb (fun c => isAlnum c || (c =? HYPHEN)%N) x = true
    /\ hyphenRun x = false.
Proof.
  unfold Hashtags.labelAsHashtag, re_notAlnumSpaceHyphen.
  rewrite replace_class_delete.
  set (kept := filter _ label).
  assert (Hkept : forallb isAlnumSpaceHyphen kept = true).
  { subst kept. erewrite filter_ext; [apply forallb_filter_self|].
    intros c. apply negb_involutive. }
  set (x1 := replaceWith re_spaces (js "-") kept).
  assert (H1 : forallb (fun c => isAlnum c || (c =? HYPHEN)%N) x1 = true).
  { apply (replaceWith_plus_forall isSpace isAlnumSpaceHyphen); [|reflexivity|exact Hkept].
    intros c Hc Hs. unfold isAlnumSpaceHyphen in Hc. rewrite Hs in Hc.
    now rewrite orb_false_r in Hc. }
  set (x := replaceWith re_hyphens (js "-") x1).
  assert (H2 : forallb (fun c => isAlnum c || (c =? HYPHEN)%N) x = true)
    by (apply forallb_replaceWith; [reflexivity | exact H1]).
  exists x. repeat split.
  - apply toLowerCase_ascii. revert H2. apply forallb_impl.
    intros c Hc. apply N.ltb_lt, isWordHyphen_ascii.
    unfold isWordHyphen, isWord. apply orb_true_iff in Hc as [-> | ->];
      [reflexivity | apply orb_true_r].
  - exact H2.
  - apply replaceWith_plus_no_hyphenRun, forallb_const_true.
    intros c. apply orb_negb_r.
Qed.

Lemma comparison_form_units (label : str) :
  forallb isLowerDigitHyphen (Hashtags.labelAsHashtag label) = true
  /\ hyphenRun (Hashtags.labelAsHashtag label) = false.
Proof.
  destruct (labelAsHashtag_unfolded label) as (x & -> & Hx & Hrun). split.
  - rewrite forallb_map_units. revert Hx. apply forallb_impl, lowerUnit_shape.
  - now rewrite hyphenRun_lower.
Qed.

(** X1: whatever the label, its comparison form is made of lower-case
    ASCII letters, digits and hyphens only, and no two hyphens touch. *)
Theorem labelAsHashtag_shape (label : str) :
  forallb isLowerDigitHyphen (Hashtags.labelAsHashtag label) = true
  /\ hyphenRun (Hashtags.labelAsHashtag label) = false.
Proof. exact (comparison_form_units label). Qed.

Lemma toLowerCase_wordHyphen w :
  forallb isWordHyphen w = true -> toLowerCase w = map lowerUnit w.
Proof. intros Hw. apply toLowerCase_ascii. now apply isWordHyphen_isAscii. Qed.

Lemma existsb_underscore_lower w :
  existsb (fun c => (c =? 95)%N) (map lowerUnit w) = existsb (fun c => (c =? 95)%N) w.
Proof.
  induction w as [|c r IH]; [reflexivity|]. cbn [map existsb]. rewrite IH. f_equal.
  rewrite (N.eqb_sym (lowerUnit c)), (N.eqb_sym c). now apply eqb_lowerUnit.
Qed.

Lemma shape_no_underscore x :
  forallb isLowerDigitHyphen x = true -> existsb (fun c => (c =? 95)%N) x = false.
Proof.
  induction x as [|c r IH]; [reflexivity|]. simpl.
  intros E. apply andb_true_iff in E as [Ec Er]. rewrite (IH Er), orb_false_r.
  destruct (N.eqb_spec c 95) as [-> | _]; [discriminate | reflexivity].
Qed.

(** X2: a hashtag that holds an underscore, or two hyphens in a row, is
    escaped whatever the valid labels are: no comparison form has either. *)
Theorem hashtag_with_underscore_escaped (w : str) :
  w <> [] ->
  forallb isWordHyphen w = true ->
  existsb (fun c => (c =? 95)%N) w = true \/ hyphenRun w = true ->
  Hashtags.isValidLabel validLabels w = false
  /\ Hashtags.escapeInvalidHashtags validLabels (HASH :: w) = BACKSLASH :: HASH :: w.
Proof.
  intros Hne Hw Hbad.
  assert (Hinvalid : Hashtags.isValidLabel validLabels w = false).
  { unfold Hashtags.isValidLabel.
    destruct (existsb _ validLabels) eqn:E; [|reflexivity]. exfalso.
    apply existsb_exists in E as (label & _ & E). apply str_eqb_eq in E.
    rewrite (toLowerCase_wordHyphen _ Hw) in E.
    destruct (comparison_form_units label) as [Hshape Hrun]. rewrite E in Hshape, Hrun.
    destruct Hbad as [Hu | Hr].
    - apply shape_no_underscore in Hshape.
      rewrite existsb_underscore_lower in Hshape. congruence.
    - rewrite hyphenRun_lower in Hrun. congruence. }
  split; [exact Hinvalid|].
  rewrite <- (app_nil_r w) at 1.
  rewrite (esc_token validLabels w [] Hne Hw eq_refl), escapeMatch_cases.
  cbn [skipn]. rewrite Hinvalid. apply app_nil_r.
Qed.

Lemma replace_lit_absent (x : codeunit) (pat lit s : str) :
  forallb (fun c => negb (c =? x)%N) s = true ->
  replaceWith (m_lit (x :: pat)) lit s = s.
Proof.
  unfold replaceWith. induction s as [|c r IH]; [reflexivity|]. simpl.
  intros E. apply andb_true_iff in E as [Ec Er]. apply negb_true_iff in Ec.
  rewrite replace_cons. unfold m_lit at 1. cbn [isPrefix].
  rewrite N.eqb_sym, Ec. cbn [andb]. now rewrite (IH Er).
Qed.

Lemma replace_sep_absent (lit s : str) :
  forallb (fun c => negb (c =? HYPHEN)%N) s = true ->
  replaceWith re_sep lit s = s.
Proof.
  unfold replaceWith. induction s as [|c r IH]; [reflexivity|]. simpl.
  intros E. apply andb_true_iff in E as [Ec Er].
  rewrite replace_cons, (IH Er).
  replace (re_sep (c :: r)) with O; [reflexivity|].
  unfold re_sep, m_lit. change (js " - ") with [32%N; HYPHEN; 32%N]. cbn [isPrefix].
  destruct r as [|d r]; [now rewrite andb_false_r|].
  simpl in Er. apply andb_true_iff in Er as [Ed _]. apply negb_true_iff in Ed.
  rewrite (N.eqb_sym HYPHEN), Ed. cbn [andb]. now rewrite andb_false_r.
Qed.

Lemma alnum_not_hyphen c : isAlnum c = true -> (c =? HYPHEN)%N = false.
Proof.
  intros E. destruct (N.eqb_spec c HYPHEN) as [-> | _]; [discriminate | reflexivity].
Qed.

Lemma alnum_not_slash c : isAlnum c = true -> (c =? 47)%N = false.
Proof.
  intros E. destruct (N.eqb_spec c 47) as [-> | _]; [discriminate | reflexivity].
Qed.

Lemma esc_lone_hash : Hashtags.escapeInvalidHashtags validLabels [HASH] = [HASH].
Proof. now rewrite esc_plain. Qed.

(** X3: the labels a converter writes as hashtags are valid for its own
    escaper when they are simple: for a label of the set made of ASCII
    letters, digits and white space, the hashtag [generateHashtags] gives
    passes the escaper unchanged. *)
Theorem generated_hashtag_is_valid (name : str) :
  In name validLabels ->
  forallb (fun c => isAlnum c || isSpace c) name = true ->
  Hashtags.escapeInvalidHashtags validLabels (Hashtags.labelHashtag name)
  = Hashtags.labelHashtag name.
Proof.
  intros Hin Hname.
  assert (Hslash : forallb (fun c => negb (c =? 47)%N) name = true).
  { revert Hname. apply forallb_impl. intros c Hc. apply negb_true_iff.
    apply orb_true_iff in Hc as [Hc | Hc]; [now apply alnum_not_slash|].
    destruct (N.eqb_spec c 47) as [-> | _]; [discriminate | reflexivity]. }
  assert (Hhyph : forallb (fun c => negb (c =? HYPHEN)%N) name = true).
  { revert Hname. apply forallb_impl. intros c Hc. apply negb_true_iff.
    apply orb_true_iff in Hc as [Hc | Hc]; [now apply alnum_not_hyphen|].
    destruct (N.eqb_spec c HYPHEN) as [-> | _]; [discriminate | reflexivity]. }
  set (x := replaceWith re_spaces (js "-") name).
  assert (Hx : forallb (fun c => isAlnum c || (c =? HYPHEN)%N) x = true).
  { apply (replaceWith_plus_forall isSpace (fun c => isAlnum c || isSpace c));
      [|reflexivity|exact Hname].
    intros c Hc Hs. rewrite Hs, orb_false_r in Hc. now rewrite Hc. }
  assert (Hrun : hyphenRun x = false).
  { apply replaceWith_plus_no_hyphenRun. revert Hhyph. apply forallb_impl.
    intros c ->. apply orb_true_r. }
  assert (Hw : forallb isWordHyphen x = true).
  { revert Hx. apply forallb_impl. intros c Hc. unfold isWordHyphen, isWord.
    apply orb_true_iff in Hc as [-> | ->]; [reflexivity | apply orb_true_r]. }
  assert (Htag : Hashtags.labelHashtag name = HASH :: map lowerUnit x).
  { unfold Hashtags.labelHashtag. cbv zeta.
    change re_slash with (m_lit (47%N :: [])).
    rewrite (replace_lit_absent _ _ _ _ Hslash), (replace_sep_absent _ _ Hhyph).
    fold x. now rewrite (toLowerCase_wordHyphen _ Hw). }
  assert (Hform : Hashtags.labelAsHashtag name = map lowerUnit x).
  { unfold Hashtags.labelAsHashtag, re_notAlnumSpaceHyphen.
    rewrite replace_class_delete.
    erewrite filter_ext; [|intros c; apply negb_involutive].
    rewrite filter_all.
    - fold x. rewrite (replace_hyphens_id _ Hrun). now apply toLowerCase_wordHyphen.
    - revert Hname. apply forallb_impl. intros c Hc.
      apply orb_true_iff in Hc as [-> | ->]; [reflexivity|].
      now rewrite orb_true_r. }
  rewrite Htag.
  assert (Hy : forallb isWordHyphen (map lowerUnit x) = true).
  { rewrite forallb_map_units. revert Hw. apply forallb_impl, lowerUnit_wordHyphen. }
  destruct (map lowerUnit x) as [|d y] eqn:Ey; [apply esc_lone_hash|].
  rewrite <- (app_nil_r (d :: y)) at 1.
  rewrite (esc_token validLabels (d :: y) [] ltac:(discriminate) Hy eq_refl),
    escapeMatch_cases.
  cbn [skipn].
  replace (Hashtags.isValidLabel validLabels (d :: y)) with true; [apply app_nil_r|].
  symmetry. apply existsb_exists. exists name. split; [exact Hin|].
  apply str_eqb_eq. rewrite Hform, (toLowerCase_wordHyphen _ Hy), <- Ey.
  rewrite map_map. symmetry. apply map_ext, lowerUnit_idem.
Qed.

(** X4: without a [Labels.txt] no label is valid, and every hashtag of a
    text is escaped: each span the pattern finds in the result stands
    right after the marker, and the result is longer than the text by the
    number of hashtags. *)
Theorem no_labels_every_hashtag_escaped (s : str) :
  Forall (fun occ => fst occ = Some BACKSLASH)
    (occurrences re_hashtag
       (Hashtags.escapeInvalidHashtags (Hashtags.loadValidLabels None) s))
  /\ length (Hashtags.escapeInvalidHashtags (Hashtags.loadValidLabels None) s)
     = (length s + length (matches re_hashtag s))%nat.
Proof.
  split.
  - unfold occurrences. rewrite esc_occurrences.
    apply Forall_map, Forall_forall. now intros [p tok] _.
  - rewrite esc_length. f_equal. unfold invalidCount. f_equal.
    induction (matches re_hashtag s) as [|tok l IH]; [reflexivity|].
    cbn [filter Hashtags.loadValidLabels Hashtags.isValidLabel existsb negb].
    now rewrite IH at 1.
Qed.
End ComparisonForm.

(** ** The comparison form against steps 3 and 4 of the normaliser *)

(** What is left of a text whose runs of a class [p] were replaced: the
    characters outside [p] are all there. *)
Lemma replaceWith_plus_keeps (p P : codeunit -> bool) (lit : str) :
  forall s : str,
    forallb P (replaceWith (m_plus p) lit s) = true ->
    forallb (fun c => p c || P c) s = true.
Proof.
  unfold replaceWith. induction s as [s IH] using str_length_ind. intros Hs.
  destruct s as [|c r]; [reflexivity|].
  rewrite replace_plus_cons in Hs. cbn [forallb].
  destruct (p c) eqn:E.
  - rewrite forallb_app in Hs. apply andb_true_iff in Hs as [_ Hs].
    apply IH in Hs; [|pose proof (dropWhile_length_le p r); simpl; lia].
    cbn [orb andb]. rewrite <- (takeWhile_dropWhile p r), forallb_app, Hs, andb_true_r.
    generalize (takeWhile_all p r). apply forallb_impl. now intros d ->.
  - cbn [forallb] in Hs. apply andb_true_iff in Hs as [Hc Hr].
    rewrite Hc. cbn [orb andb]. apply IH; [simpl; lia | exact Hr].
Qed.

Lemma collapse_ascii label :
  forallb (fun c => (c <? 128)%N || isSpace c) label = true ->
  isAscii (replaceWith re_spaces (js "-") label) = true.
Proof.
  intros Hl. unfold isAscii, re_spaces.
  apply (replaceWith_plus_forall isSpace (fun c => (c <? 128)%N || isSpace c));
    [|reflexivity|exact Hl].
  intros c Hc Hs. now rewrite Hs, orb_false_r in Hc.
Qed.

Lemma lowerUnit_shape_inv c :
  isLowerDigitHyphen (lowerUnit c) = true -> (isAlnum c || (c =? HYPHEN)%N) = true.
Proof.
  unfold lowerUnit, isAlnum. destruct (isUpper c) eqn:E.
  - intros _. now rewrite orb_true_r.
  - unfold isLowerDigitHyphen.
    now destruct (isLower c), (isDigit c), (c =? HYPHEN)%N.
Qed.

(** C3 (as the code has it): a candidate is accepted exactly when its
    lowercased form equals the comparison form of some label of the set.
    The comparison form is not steps 3 and 4 of the normaliser alone: the
    label first loses every character outside [[a-zA-Z0-9\s-]] and, once
    white space runs are hyphens, runs of hyphens are collapsed to one.
    On a label whose characters other than white space are ASCII, it
    coincides with steps 3 and 4 exactly when the label is written with
    letters, digits, white space and hyphens only and its
    white-space-collapsed form has no two hyphens next to each other. *)
Theorem labelAsHashtag_vs_normalizer {H : Host} (validLabels : list str)
    (hashtag label : str) :
  forallb (fun c => (c <? 128)%N || isSpace c) label = true ->
  (Hashtags.isValidLabel validLabels hashtag = true
   <-> exists l, In l validLabels /\ Hashtags.labelAsHashtag l = toLowerCase hashtag)
  /\ (forall l,
        Hashtags.labelAsHashtag l
        = toLowerCase
            (replaceWith re_hyphens (js "-")
               (replaceWith re_spaces (js "-")
                  (filter (fun c => isAlnum c || isSpace c || (c =? HYPHEN)%N) l))))
  /\ (Hashtags.labelAsHashtag label = normalizerSteps34 label
      <-> forallb (fun c => isAlnum c || isSpace c || (c =? HYPHEN)%N) label = true
          /\ hyphenRun (replaceWith re_spaces (js "-") label) = false).
Proof.
  intros Hbasic.
  assert (Hform : forall l,
             Hashtags.labelAsHashtag l
             = toLowerCase
                 (replaceWith re_hyphens (js "-")
                    (replaceWith re_spaces (js "-")
                       (filter (fun c => isAlnum c || isSpace c || (c =? HYPHEN)%N) l)))).
  { intros l. unfold Hashtags.labelAsHashtag, re_notAlnumSpaceHyphen.
    rewrite replace_class_delete. do 3 f_equal.
    apply filter_ext. intros c. apply negb_involutive. }
  split; [|split; [exact Hform|]]; split.
  - unfold Hashtags.isValidLabel. intros E.
    apply existsb_exists in E as (l & Hin & E). apply str_eqb_eq in E. now exists l.
  - intros (l & Hin & E). apply existsb_exists. exists l.
    split; [exact Hin | now apply str_eqb_eq].
  - intros E. pose proof (comparison_form_units label) as [Hunits Hrun].
    rewrite E in Hunits, Hrun. unfold normalizerSteps34 in Hunits, Hrun.
    rewrite (toLowerCase_ascii _ (collapse_ascii _ Hbasic)) in Hunits, Hrun.
    rewrite hyphenRun_lower in Hrun. split; [|exact Hrun].
    rewrite forallb_map_units in Hunits.
    apply replaceWith_plus_keeps in Hunits. revert Hunits. apply forallb_impl.
    intros c Hc. apply orb_true_iff in Hc as [Hs | Hc].
    + rewrite Hs. now rewrite orb_true_r.
    + apply lowerUnit_shape_inv in Hc.
      now destruct (isAlnum c), (isSpace c), (c =? HYPHEN)%N.
  - intros [Hall Hrun].
    rewrite Hform, (filter_all _ _ Hall), (replace_hyphens_id _ Hrun). reflexivity.
Qed.

(** [Interior Design] compares as [interior-design] either way. *)
Lemma labelAsHashtag_vs_normalizer_witness :
  Hashtags.labelAsHashtag (H := utcHost) (js "Interior Design")
  = normalizerSteps34 (H := utcHost) (js "Interior Design")
  <-> forallb (fun c => isAlnum c || isSpace c || (c =? HYPHEN)%N)
        (js "Interior Design") = true
      /\ hyphenRun (replaceWith re_spaces (js "-") (js "Interior Design")) = false.
Proof.
  apply (labelAsHashtag_vs_normalizer (H := utcHost) [] [] (js "Interior Design")).
  reflexivity.
Defined.

(** The loader keeps the labels as they are written. *)
Lemma loadValidLabels_labelsTxt :
  Hashtags.loadValidLabels (Some labelsTxt) = [js "Personal - Friends"; js "anything"].
Proof. reflexivity. Qed.

(** [Personal - Friends] compares as [personal-friends], while steps 3 and
    4 make it [personal---friends]; so the candidate [#personal---friends],
    equal to the label under steps 3 and 4, is escaped. *)
Lemma labelAsHashtag_not_steps34 :
  In (js "Personal - Friends") (Hashtags.loadValidLabels (Some labelsTxt))
  /\ ~ exists H : Host,
         Hashtags.labelAsHashtag (js "Personal - Friends")
         = normalizerSteps34 (js "Personal - Friends")
         \/ Hashtags.escapeInvalidHashtags (Hashtags.loadValidLabels (Some labelsTxt))
              (js "#personal---friends")
            = js "#personal---friends".
Proof.
  split; [now left|].
  intros [H [E | E]]; vm_compute in E; discriminate.
Qed.


Lemma hashtag_with_underscore_escaped_witness :
  Hashtags.escapeInvalidHashtags (H := utcHost)
    (Hashtags.loadValidLabels (Some labelsTxt)) (js "#snake_case")
  = js "\#snake_case".
Proof.
  apply (hashtag_with_underscore_escaped (H := utcHost)
           (Hashtags.loadValidLabels (Some labelsTxt)) (js "snake_case")).
  - discriminate.
  - reflexivity.
  - left. reflexivity.
Defined.

Lemma generated_hashtag_is_valid_witness :
  Hashtags.escapeInvalidHashtags (H := utcHost) [js "Interior Design"]
    (Hashtags.labelHashtag (H := utcHost) (js "Interior Design"))
  = Hashtags.labelHashtag (H := utcHost) (js "Interior Design").
Proof.
  apply (generated_hashtag_is_valid (H := utcHost) [js "Interior Design"]
           (js "Interior Design")).
  - now left.
  - reflexivity.
Defined.

(** ** Loading the valid labels *)

Lemma lineLabel_needs_arrow line :
  forallb (fun c => negb (c =? 8594)%N) line = true -> Hashtags.lineLabel line = None.
Proof.
  intros Hline. unfold Hashtags.lineLabel.
  pose proof (forallb_dropWhile _ isDigit _ (forallb_dropWhile _ isSpace _ Hline)) as Hd.
  destruct (takeWhile isDigit (dropWhile isSpace line)) as [|d0 ds]; [reflexivity|].
  destruct (dropWhile isDigit (dropWhile isSpace line)) as [|c r]; [reflexivity|].
  simpl in Hd. apply andb_true_iff in Hd as [Hc _]. apply negb_true_iff in Hc.
  destruct (N.eqb_spec c 8594) as [-> | Hne]; [discriminate|].
  destruct c as [|q]; [reflexivity|].
  repeat (destruct q as [q|q|]; try reflexivity). congruence.
Qed.

Lemma splitLines_forall (q : codeunit -> bool) content :
  forallb q content = true ->
  Forall (fun line => forallb q line = true) (Hashtags.splitLines content).
Proof.
  induction content as [|c r IH]; intros E.
  - repeat constructor.
  - simpl in E. apply andb_true_iff in E as [Ec Er]. specialize (IH Er).
    cbn [Hashtags.splitLines]. destruct (c =? LF)%N.
    + constructor; [reflexivity | exact IH].
    + destruct (Hashtags.splitLines r) as [|line rest].
      * repeat constructor. simpl. now rewrite Ec.
      * inversion IH as [|? ? Hl Hrest]; subst.
        constructor; [simpl; now rewrite Ec, Hl | exact Hrest].
Qed.

(** X5: a [Labels.txt] written as the README shows it, one label per line
    with no line number and arrow in front, loads no label at all. *)
Theorem loadValidLabels_needs_arrows (content : str) :
  forallb (fun c => negb (c =? 8594)%N) content = true ->
  Hashtags.loadValidLabels (Some content) = [].
Proof.
  intros Hc. unfold Hashtags.loadValidLabels.
  pose proof (splitLines_forall _ _ Hc) as Hlines.
  assert (Hfold : forall acc : list str,
             fold_left
               (fun set line =>
                  match Hashtags.lineLabel line with
                  | Some captured =>
                      if truthy (trim captured) then Hashtags.setAdd (trim captured) set
                      else set
                  | None => set
                  end) (Hashtags.splitLines content) acc = acc).
  { induction Hlines as [|line rest Hl _ IH]; intros acc; [reflexivity|].
    cbn [fold_left]. rewrite (lineLabel_needs_arrow _ Hl). apply IH. }
  apply Hfold.
Qed.

Lemma loadValidLabels_needs_arrows_witness :
  Hashtags.loadValidLabels (Some readmeLabelsTxt) = [].
Proof. apply (loadValidLabels_needs_arrows readmeLabelsTxt). reflexivity. Defined.

Lemma setAdd_In x set l : In l (Hashtags.setAdd x set) <-> l = x \/ In l set.
Proof.
  unfold Hashtags.setAdd. destruct (existsb (str_eqb x) set) eqn:E.
  - split; [now right|]. intros [-> | Hin]; [|exact Hin].
    apply existsb_exists in E as (y & Hy & E). apply str_eqb_eq in E.
    rewrite E. exact Hy.
  - rewrite in_app_iff. simpl. split; [intros [Hin | [<- | []]] | intros [-> | Hin]]; auto.
Qed.

Lemma setAdd_NoDup x set : NoDup set -> NoDup (Hashtags.setAdd x set).
Proof.
  intros Hnd. unfold Hashtags.setAdd. destruct (existsb (str_eqb x) set) eqn:E; [exact Hnd|].
  apply NoDup_app; [exact Hnd | repeat constructor; intros [] |].
  intros y Hy [Hxy | []]. subst y.
  assert (Hex : existsb (str_eqb x) set = true)
    by (apply existsb_exists; exists x; split; [exact Hy | apply str_eqb_refl]).
  congruence.
Qed.

Lemma dropWhile_fixed (p : codeunit -> bool) s :
  match s with c :: _ => p c = false | [] => True end -> dropWhile p s = s.
Proof. destruct s as [|c r]; [reflexivity|]. simpl. now intros ->. Qed.

Lemma trim_fixed s : startsWithSpace s = false -> endsWithSpace s = false -> trim s = s.
Proof.
  intros Hs He. unfold trim, trimEnd, trimStart.
  rewrite (dropWhile_fixed isSpace s) by (destruct s; [exact I | exact Hs]).
  rewrite dropWhile_fixed; [apply rev_involutive|].
  unfold endsWithSpace in He. destruct (rev s); [exact I | exact He].
Qed.

Lemma trim_idem s : trim (trim s) = trim s.
Proof. apply trim_fixed; [apply trim_no_leading_space | apply trim_no_trailing_space]. Qed.

Lemma lineLabel_no_terminator line captured :
  Hashtags.lineLabel line = Some captured ->
  forallb (fun c => negb (isLineTerminator c)) captured = true.
Proof.
  unfold Hashtags.lineLabel.
  destruct (takeWhile isDigit (dropWhile isSpace line)) as [|d0 ds]; [discriminate|].
  destruct (dropWhile isDigit (dropWhile isSpace line)) as [|c r]; [discriminate|].
  destruct (truthy r && forallb (fun c => negb (isLineTerminator c)) r) eqn:E.
  - apply andb_true_iff in E as [_ E].
    destruct c as [|q]; [discriminate|].
    repeat (destruct q as [q|q|]; try discriminate). now intros [= <-].
  - destruct c as [|q]; [discriminate|].
    repeat (destruct q as [q|q|]; try discriminate).
Qed.

(** X6: the set [loadValidLabels] builds from a [Labels.txt] holds exactly
    the trimmed, non-blank captures of its numbered lines, each once; so
    every loaded label is non-empty, has no white space around it and no
    line terminator inside. *)
Theorem loadValidLabels_spec (content : str) :
  (forall l,
      In l (Hashtags.loadValidLabels (Some content))
      <-> exists line, In line (Hashtags.splitLines content) /\ lineGives line l)
  /\ NoDup (Hashtags.loadValidLabels (Some content))
  /\ Forall (fun l =>
               l <> [] /\ trim l = l
               /\ forallb (fun c => negb (isLineTerminator c)) l = true)
       (Hashtags.loadValidLabels (Some content)).
Proof.
  unfold Hashtags.loadValidLabels.
  set (step := fun (set : list str) (line : str) =>
                 match Hashtags.lineLabel line with
                 | Some captured =>
                     if truthy (trim captured) then Hashtags.setAdd (trim captured) set
                     else set
                 | None => set
                 end).
  assert (Hin : forall lines acc l,
             In l (fold_left step lines acc)
             <-> In l acc \/ exists line, In line lines /\ lineGives line l).
  { induction lines as [|line rest IH]; intros acc l.
    - simpl. split; [now left | intros [Hl | (line & [] & _)]; exact Hl].
    - cbn [fold_left]. rewrite IH. unfold step, lineGives.
      destruct (Hashtags.lineLabel line) as [captured|] eqn:El.
      + destruct (trim captured) as [|c t] eqn:Et; cbn [truthy].
        * split.
          -- intros [Hl | (ln & Hln & Hg)]; [now left|].
             right. exists ln. split; [now right | exact Hg].
          -- intros [Hl | (ln & [<- | Hln] & Hg)]; [now left | | right; now exists ln].
             destruct Hg as (cap & Hcap & Hne & _). rewrite El in Hcap.
             injection Hcap as <-. congruence.
        * rewrite setAdd_In. split.
          -- intros [[-> | Hl] | (ln & Hln & Hg)]; [|now left|].
             ++ right. exists line. split; [now left|].
                exists captured. rewrite Et. repeat split; [exact El | discriminate].
             ++ right. exists ln. split; [now right | exact Hg].
          -- intros [Hl | (ln & [<- | Hln] & Hg)]; [left; now right | | right; now exists ln].
             destruct Hg as (cap & Hcap & _ & ->). rewrite El in Hcap.
             injection Hcap as <-. left. left. exact Et.
      + split.
        * intros [Hl | (ln & Hln & Hg)]; [now left|].
          right. exists ln. split; [now right | exact Hg].
        * intros [Hl | (ln & [<- | Hln] & Hg)]; [now left | | right; now exists ln].
          destruct Hg as (cap & Hcap & _). rewrite El in Hcap. discriminate. }
  assert (Hnd : forall lines acc, NoDup acc -> NoDup (fold_left step lines acc)).
  { induction lines as [|line rest IH]; intros acc Hacc; [exact Hacc|].
    cbn [fold_left]. apply IH. unfold step.
    destruct (Hashtags.lineLabel line) as [captured|]; [|exact Hacc].
    destruct (truthy (trim captured)); [now apply setAdd_NoDup | exact Hacc]. }
  repeat split.
  - intros Hl. apply Hin in Hl as [[] | Hl]. exact Hl.
  - intros Hl. apply Hin. now right.
  - apply Hnd. constructor.
  - apply Forall_forall. intros l Hl. apply Hin in Hl as [[] | (line & _ & cap & Hcap & Hne & ->)].
    repeat split; [exact Hne | apply trim_idem |].
    apply forallb_trim. exact (lineLabel_no_terminator _ _ Hcap).
Qed.

(** ** The timestamp as a double *)

(** The time values of the model are those of the Standard Library's
    IEEE 754 specification on the sample timestamps. *)
Lemma timeValue_as_SpecFloat :
  map (fun n => timeClip (divide (toNumber n) 1000)) timestampSamples
  = map referenceTimeValue timestampSamples.
Proof. vm_compute. reflexivity. Qed.

Lemma halfEven_ge p q k : 0 < q -> k * q <= p -> k <= halfEven p q.
Proof.
  intros Hq Hk. unfold halfEven.
  pose proof (Z.div_mod p q ltac:(lia)) as E.
  pose proof (Z.mod_pos_bound p q Hq) as B.
  assert (k <= p / q) by (apply Z.div_le_lower_bound; lia).
  destruct (2 * (p mod q) <? q); [lia|].
  destruct (q <? 2 * (p mod q)); [lia|].
  destruct (Z.even (p / q)); lia.
Qed.

Lemma halfEven_lt p q M : 0 < q -> 2 * p + q < 2 * q * M -> halfEven p q < M.
Proof.
  intros Hq HM. unfold halfEven.
  pose proof (Z.div_mod p q ltac:(lia)) as E.
  pose proof (Z.mod_pos_bound p q Hq) as B.
  set (f := p / q) in *. set (r := p mod q) in *.
  destruct (2 * r <? q) eqn:E1; [apply Z.ltb_lt in E1; nia|].
  apply Z.ltb_ge in E1.
  destruct (q <? 2 * r); [nia|].
  destruct (Z.even f); nia.
Qed.

Lemma halfEven_le p q M : 0 < q -> p <= M * q -> halfEven p q <= M.
Proof.
  intros Hq HM. unfold halfEven.
  pose proof (Z.div_mod p q ltac:(lia)) as E.
  pose proof (Z.mod_pos_bound p q Hq) as B.
  set (f := p / q) in *. set (r := p mod q) in *.
  destruct (2 * r <? q) eqn:E1; [apply Z.ltb_lt in E1; nia|].
  apply Z.ltb_ge in E1.
  assert (f < M) by nia.
  destruct (q <? 2 * r); [lia|].
  destruct (Z.even f); lia.
Qed.

Lemma halfEven_exact m q : 0 < q -> halfEven (m * q) q = m.
Proof.
  intros Hq. unfold halfEven.
  rewrite Z.div_mul, Z.mod_mul by lia.
  replace (2 * 0 <? q) with true; [reflexivity|]. symmetry. apply Z.ltb_lt. lia.
Qed.

Lemma pow2_pos a : 0 < 2 ^ a \/ 2 ^ a = 0.
Proof. destruct (Z.le_gt_cases 0 a); [left; now apply Z.pow_pos_nonneg | right; now apply Z.pow_neg_r]. Qed.

Lemma binade_le p q k :
  0 < p -> 0 < q -> 0 <= k -> p < 2 ^ (k + 1) * q -> binade p q <= k.
Proof.
  intros Hp Hq Hk Hlt. unfold binade.
  pose proof (Z.log2_spec p Hp) as [Lp Up].
  pose proof (Z.log2_spec q Hq) as [Lq Uq].
  pose proof (Z.log2_nonneg p). pose proof (Z.log2_nonneg q).
  set (lp := Z.log2 p) in *. set (lq := Z.log2 q) in *.
  assert (Hd : lp - lq <= k + 1).
  { assert (2 ^ lp < 2 ^ (k + 1 + Z.succ lq)).
    { rewrite Z.pow_add_r by lia.
      assert (0 < 2 ^ (k + 1)) by (apply Z.pow_pos_nonneg; lia). nia. }
    apply Z.pow_lt_mono_r_iff in H1; lia. }
  destruct (q * 2 ^ Z.max 0 (lp - lq) <=? p * 2 ^ Z.max 0 (- (lp - lq))) eqn:T; [|lia].
  apply Z.leb_le in T.
  destruct (Z.eq_dec (lp - lq) (k + 1)) as [E|]; [|lia].
  rewrite E in T. rewrite (Z.max_r 0 (k + 1)), (Z.max_l 0 (- (k + 1))) in T by lia.
  change (2 ^ 0) with 1 in T. lia.
Qed.

Lemma binade_ge_neg p q a :
  0 < p -> 0 < q -> 0 <= a -> q <= 2 ^ a * p -> - a <= binade p q.
Proof.
  intros Hp Hq Ha Hle. unfold binade.
  pose proof (Z.log2_spec p Hp) as [Lp Up].
  pose proof (Z.log2_spec q Hq) as [Lq Uq].
  pose proof (Z.log2_nonneg p). pose proof (Z.log2_nonneg q).
  set (lp := Z.log2 p) in *. set (lq := Z.log2 q) in *.
  assert (Hd : - a <= lp - lq).
  { assert (2 ^ lq < 2 ^ (a + Z.succ lp)).
    { rewrite Z.pow_add_r by lia.
      assert (0 < 2 ^ a) by (apply Z.pow_pos_nonneg; lia). nia. }
    apply Z.pow_lt_mono_r_iff in H1; lia. }
  destruct (q * 2 ^ Z.max 0 (lp - lq) <=? p * 2 ^ Z.max 0 (- (lp - lq))) eqn:T; [lia|].
  apply Z.leb_gt in T.
  destruct (Z.eq_dec (lp - lq) (- a)) as [E|]; [|lia].
  rewrite E in T. rewrite (Z.max_l 0 (- a)), (Z.max_r 0 (- - a)) in T by lia.
  change (2 ^ 0) with 1 in T. rewrite Z.opp_involutive in T. lia.
Qed.

Lemma binade_unit n : 0 < n -> binade n 1 = Z.log2 n.
Proof.
  intros Hn. unfold binade. change (Z.log2 1) with 0. rewrite Z.sub_0_r.
  pose proof (Z.log2_spec n Hn) as [L U]. pose proof (Z.log2_nonneg n).
  rewrite Z.max_r, Z.max_l by lia. change (2 ^ 0) with 1.
  replace (1 * 2 ^ Z.log2 n <=? n * 1) with true; [reflexivity|].
  symmetry. apply Z.leb_le. lia.
Qed.

(** The quotient whose whole part is [k] and whose fraction is at most
    [999/1000], below [2^44]: its double keeps the whole part. *)
Lemma timeClip_millisecond p q k :
  0 < p -> 0 < q -> 0 <= k ->
  k * q <= p -> 1000 * p <= (1000 * k + 999) * q ->
  q <= 2 ^ 10 * p -> p < 2 ^ 44 * q ->
  timeClip (roundQuotient p q) = Some k.
Proof.
  intros Hp Hq Hk Hlo Hhi Hsmall Hbig.
  unfold roundQuotient. destruct p as [|p'|p']; try lia.
  set (p := Z.pos p') in *.
  unfold roundPositive.
  pose proof (binade_le p q 43 Hp Hq ltac:(lia) Hbig) as Hj.
  pose proof (binade_ge_neg p q 10 Hp Hq ltac:(lia) Hsmall) as Hj'.
  set (j := binade p q) in *.
  rewrite (Z.max_l (j - 52) (-1074)) by lia.
  rewrite (Z.max_r 0 (- (j - 52))), (Z.max_l 0 (j - 52)) by lia.
  change (2 ^ 0) with 1. rewrite !Z.mul_1_r.
  set (s := - (j - 52)).
  assert (Hs : 9 <= s <= 62) by (subst s; lia).
  assert (HT : 2 ^ 9 <= 2 ^ s <= 2 ^ 62) by (split; apply Z.pow_le_mono_r; lia).
  set (T := 2 ^ s) in *.
  set (m := halfEven (p * T) q).
  assert (Hm1 : k * T <= m) by (apply halfEven_ge; [lia | nia]).
  assert (Hm2 : m < (k + 1) * T) by (apply halfEven_lt; [lia | nia]).
  assert (Hk44 : k < 2 ^ 44) by nia.
  replace (2 ^ 1024 <=? m) with false.
  2:{ symmetry. apply Z.leb_gt.
      apply Z.lt_le_trans with (2 ^ 44 * 2 ^ 62); [nia|].
      rewrite <- Z.pow_add_r by lia. apply Z.pow_le_mono_r; lia. }
  cbn [timeClip].
  rewrite (Z.max_l 0 (j - 52)), (Z.max_r 0 (- (j - 52))) by lia.
  change (2 ^ 0) with 1. rewrite !Z.mul_1_r. fold s. fold T.
  rewrite Z.abs_eq by nia.
  replace (m <=? maxTime * T) with true by (symmetry; apply Z.leb_le; unfold maxTime; nia).
  f_equal. rewrite Z.quot_div_nonneg by nia.
  symmetry. apply Z.div_unique with (m - k * T); nia.
Qed.

Lemma toNumber_exact n :
  0 < n < 2 ^ 53 ->
  toNumber n = Finite (n * 2 ^ (52 - Z.log2 n)) (Z.log2 n - 52).
Proof.
  intros [Hn Hlt]. unfold toNumber, roundQuotient.
  destruct n as [|n'|n']; try lia. set (n := Z.pos n') in *.
  unfold roundPositive. rewrite (binade_unit n Hn).
  pose proof (Z.log2_spec n Hn) as [L U]. pose proof (Z.log2_nonneg n).
  assert (Z.log2 n < 53) by (apply Z.log2_lt_pow2; lia).
  set (l := Z.log2 n) in *.
  rewrite (Z.max_l (l - 52) (-1074)) by lia.
  rewrite (Z.max_r 0 (- (l - 52))), (Z.max_l 0 (l - 52)) by lia.
  change (2 ^ 0) with 1. rewrite !Z.mul_1_r.
  replace (- (l - 52)) with (52 - l) by lia.
  replace (halfEven (n * 2 ^ (52 - l)) 1) with (n * 2 ^ (52 - l)).
  2:{ rewrite <- (Z.mul_1_r (n * 2 ^ (52 - l))) at 2. now rewrite halfEven_exact. }
  replace (2 ^ 1024 <=? n * 2 ^ (52 - l)) with false; [reflexivity|].
  symmetry. apply Z.leb_gt.
  apply Z.lt_le_trans with (2 ^ (l + 1) * 2 ^ (52 - l)).
  - assert (0 < 2 ^ (52 - l)) by (apply Z.pow_pos_nonneg; lia). unfold Z.succ in U. nia.
  - rewrite <- Z.pow_add_r by lia. apply Z.pow_le_mono_r; lia.
Qed.

Lemma timeValue_exact n :
  0 <= n < 2 ^ 53 -> timeClip (divide (toNumber n) 1000) = Some (n / 1000).
Proof.
  intros [Hn Hlt]. destruct (Z.eq_dec n 0) as [->|Hnz]; [reflexivity|].
  rewrite toNumber_exact by lia. cbn [divide].
  pose proof (Z.log2_nonneg n).
  assert (Z.log2 n < 53) by (apply Z.log2_lt_pow2; lia).
  set (l := Z.log2 n) in *.
  rewrite (Z.max_l 0 (l - 52)), (Z.max_r 0 (- (l - 52))) by lia.
  change (2 ^ 0) with 1. rewrite Z.mul_1_r.
  replace (- (l - 52)) with (52 - l) by lia.
  assert (Hc : 0 < 2 ^ (52 - l)) by (apply Z.pow_pos_nonneg; lia).
  set (c := 2 ^ (52 - l)) in *.
  pose proof (Z.div_mod n 1000 ltac:(lia)) as E.
  pose proof (Z.mod_pos_bound n 1000 ltac:(lia)) as B.
  assert (0 <= n / 1000) by (apply Z.div_pos; lia).
  assert (H53 : 2 ^ 53 < 2 ^ 44 * 1000) by reflexivity.
  apply timeClip_millisecond; [nia | lia | lia | nia | nia | change (2 ^ 10) with 1024; nia | nia].
Qed.

Lemma roundQuotient_opp p q : roundQuotient (- p) q = negate (roundQuotient p q).
Proof.
  destruct p as [|p|p]; cbn [roundQuotient Z.opp negate]; try reflexivity.
  destruct (roundPositive (Z.pos p) q); cbn [negate]; try reflexivity.
  now rewrite Z.opp_involutive.
Qed.

Lemma divide_negate x d : divide (negate x) d = negate (divide x d).
Proof.
  destruct x as [| |m e]; cbn [negate divide]; try reflexivity.
  rewrite Z.mul_opp_l. apply roundQuotient_opp.
Qed.

Lemma timeClip_negate x : timeClip (negate x) = option_map Z.opp (timeClip x).
Proof.
  destruct x as [| |m e]; cbn [negate timeClip]; try reflexivity.
  rewrite Z.abs_opp, Z.mul_opp_l, Z.quot_opp_l.
  - now destruct (_ <=? _).
  - pose proof (pow2_pos (Z.max 0 (- e))) as [|E]; [lia|].
    apply Z.pow_eq_0_iff in E. lia.
Qed.

Lemma timeValue_exact_signed n :
  Z.abs n < 2 ^ 53 -> timeClip (divide (toNumber n) 1000) = Some (Z.quot n 1000).
Proof.
  intros Hn. destruct (Z.le_gt_cases 0 n) as [Hp|Hneg].
  - rewrite timeValue_exact by lia. f_equal. symmetry. apply Z.quot_div_nonneg; lia.
  - replace n with (- - n) at 1 by lia. unfold toNumber.
    rewrite roundQuotient_opp, divide_negate, timeClip_negate.
    fold (toNumber (- n)). rewrite timeValue_exact by lia. cbn [option_map]. f_equal.
    rewrite <- Z.quot_div_nonneg by lia. rewrite Z.quot_opp_l by lia. lia.
Qed.


Lemma halfEven_gt p q M : 0 < q -> 2 * q * M < 2 * p - q -> M < halfEven p q.
Proof.
  intros Hq HM. unfold halfEven.
  pose proof (Z.div_mod p q ltac:(lia)) as E.
  pose proof (Z.mod_pos_bound p q Hq) as B.
  set (f := p / q) in *. set (r := p mod q) in *.
  destruct (2 * r <? q) eqn:E1; [apply Z.ltb_lt in E1; nia|].
  apply Z.ltb_ge in E1.
  destruct (q <? 2 * r) eqn:E2; [nia|].
  apply Z.ltb_ge in E2.
  destruct (Z.even f); nia.
Qed.

Lemma binade_lower p q :
  0 < p -> 0 < q -> 0 <= binade p q -> q * 2 ^ binade p q <= p.
Proof.
  intros Hp Hq. unfold binade.
  pose proof (Z.log2_spec p Hp) as [Lp Up].
  pose proof (Z.log2_spec q Hq) as [Lq Uq].
  pose proof (Z.log2_nonneg p). pose proof (Z.log2_nonneg q).
  set (lp := Z.log2 p) in *. set (lq := Z.log2 q) in *.
  destruct (q * 2 ^ Z.max 0 (lp - lq) <=? p * 2 ^ Z.max 0 (- (lp - lq))) eqn:T; intros Hj.
  - apply Z.leb_le in T.
    rewrite (Z.max_r 0 (lp - lq)), (Z.max_l 0 (- (lp - lq))) in T by lia.
    change (2 ^ 0) with 1 in T. lia.
  - assert (0 < 2 ^ (lp - lq - 1)) by (apply Z.pow_pos_nonneg; lia).
    assert (2 ^ Z.succ lq * 2 ^ (lp - lq - 1) = 2 ^ lp).
    { rewrite <- Z.pow_add_r by lia. f_equal. lia. }
    nia.
Qed.

Lemma binade_ge p q k :
  0 < p -> 0 < q -> 0 <= k -> 2 ^ k * q <= p -> k <= binade p q.
Proof.
  intros Hp Hq Hk Hle. unfold binade.
  pose proof (Z.log2_spec p Hp) as [Lp Up].
  pose proof (Z.log2_spec q Hq) as [Lq Uq].
  pose proof (Z.log2_nonneg p). pose proof (Z.log2_nonneg q).
  set (lp := Z.log2 p) in *. set (lq := Z.log2 q) in *.
  assert (Hd : k <= lp - lq).
  { assert (2 ^ (k + lq) < 2 ^ Z.succ lp).
    { rewrite Z.pow_add_r by lia.
      assert (0 < 2 ^ k) by (apply Z.pow_pos_nonneg; lia). nia. }
    apply Z.pow_lt_mono_r_iff in H1; lia. }
  destruct (q * 2 ^ Z.max 0 (lp - lq) <=? p * 2 ^ Z.max 0 (- (lp - lq))) eqn:T; [lia|].
  apply Z.leb_gt in T.
  destruct (Z.eq_dec (lp - lq) k) as [E|]; [|lia].
  rewrite E in T. rewrite (Z.max_r 0 k), (Z.max_l 0 (- k)) in T by lia.
  change (2 ^ 0) with 1 in T. lia.
Qed.

(** A quotient between [2^-10] and [8.64e15] has a time value. *)
Lemma timeClip_within p q :
  0 < p -> 0 < q -> q <= 2 ^ 10 * p -> p <= maxTime * q ->
  timeClip (roundQuotient p q) <> None.
Proof.
  intros Hp Hq Hsmall Hbig.
  unfold roundQuotient. destruct p as [|p'|p']; try lia.
  set (p := Z.pos p') in *. unfold roundPositive.
  assert (Hj : binade p q <= 52).
  { apply binade_le; try lia.
    assert (maxTime < 2 ^ (52 + 1)) by reflexivity. nia. }
  pose proof (binade_ge_neg p q 10 Hp Hq ltac:(lia) Hsmall) as Hj'.
  set (j := binade p q) in *.
  rewrite (Z.max_l (j - 52) (-1074)) by lia.
  rewrite (Z.max_r 0 (- (j - 52))), (Z.max_l 0 (j - 52)) by lia.
  change (2 ^ 0) with 1. rewrite !Z.mul_1_r.
  set (s := - (j - 52)).
  assert (Hs : 0 <= s <= 62) by (subst s; lia).
  assert (HT : 0 < 2 ^ s <= 2 ^ 62).
  { split; [apply Z.pow_pos_nonneg; lia | apply Z.pow_le_mono_r; lia]. }
  set (T := 2 ^ s) in *.
  set (m := halfEven (p * T) q).
  assert (Hm1 : 0 <= m) by (apply halfEven_ge; [lia | nia]).
  assert (Hm2 : m <= maxTime * T) by (apply halfEven_le; [lia | nia]).
  replace (2 ^ 1024 <=? m) with false.
  2:{ symmetry. apply Z.leb_gt.
      apply Z.le_lt_trans with (maxTime * 2 ^ 62); [nia | reflexivity]. }
  cbn [timeClip].
  rewrite (Z.max_l 0 (j - 52)), (Z.max_r 0 (- (j - 52))) by lia.
  change (2 ^ 0) with 1. rewrite !Z.mul_1_r. fold s. fold T.
  rewrite Z.abs_eq by lia.
  replace (m <=? maxTime * T) with true; [discriminate|].
  symmetry. apply Z.leb_le. exact Hm2.
Qed.

(** A quotient of at least [8.64e15 + 1] has none. *)
Lemma timeClip_beyond p q :
  0 < p -> 0 < q -> (maxTime + 1) * q <= p ->
  timeClip (roundQuotient p q) = None.
Proof.
  intros Hp Hq Hbig.
  unfold roundQuotient. destruct p as [|p'|p']; try lia.
  set (p := Z.pos p') in *. unfold roundPositive.
  assert (Hj : 52 <= binade p q).
  { apply binade_ge; try lia.
    assert (2 ^ 52 < maxTime + 1) by reflexivity. nia. }
  pose proof (binade_lower p q Hp Hq ltac:(lia)) as Hlow.
  set (j := binade p q) in *.
  rewrite (Z.max_l (j - 52) (-1074)) by lia.
  rewrite (Z.max_l 0 (- (j - 52))), (Z.max_r 0 (j - 52)) by lia.
  change (2 ^ 0) with 1. rewrite !Z.mul_1_r.
  assert (HT : 0 < 2 ^ (j - 52)) by (apply Z.pow_pos_nonneg; lia).
  assert (HTj : 2 ^ 52 * 2 ^ (j - 52) = 2 ^ j).
  { rewrite <- Z.pow_add_r by lia. f_equal. lia. }
  set (T := 2 ^ (j - 52)) in *.
  set (m := halfEven p (q * T)).
  destruct (2 ^ 1024 <=? m * T); [reflexivity|].
  cbn [timeClip].
  rewrite (Z.max_l 0 (- (j - 52))), (Z.max_r 0 (j - 52)) by lia.
  change (2 ^ 0) with 1. rewrite !Z.mul_1_r. fold T.
  replace (Z.abs m * T <=? maxTime) with false; [reflexivity|].
  symmetry. apply Z.leb_gt.
  destruct (Z.eq_dec j 52) as [E|NE].
  - assert (T = 1) by (subst T; now rewrite E). 
    assert (maxTime + 1 <= m) by (apply halfEven_ge; [lia | nia]).
    unfold maxTime in *. lia.
  - assert (2 <= T).
    { subst T. change 2 with (2 ^ 1). apply Z.pow_le_mono_r; lia. }
    assert (2 ^ 52 <= m) by (apply halfEven_ge; [nia | nia]).
    assert (2 ^ 52 * 2 > maxTime) by reflexivity.
    rewrite Z.abs_eq by lia. nia.
Qed.

Lemma toNumber_within n :
  0 < n <= maxUsec ->
  exists m e,
    toNumber n = Finite m e
    /\ 2 ^ Z.max 0 (- e) <= m * 2 ^ Z.max 0 e
    /\ m * 2 ^ Z.max 0 e <= 1000 * maxTime * 2 ^ Z.max 0 (- e).
Proof.
  intros [Hn Hle].
  destruct (Z.lt_ge_cases n (2 ^ 53)) as [Hsmall|Hbig].
  - rewrite toNumber_exact by lia.
    pose proof (Z.log2_nonneg n).
    assert (Z.log2 n < 53) by (apply Z.log2_lt_pow2; lia).
    set (l := Z.log2 n) in *.
    exists (n * 2 ^ (52 - l)), (l - 52). split; [reflexivity|].
    rewrite (Z.max_l 0 (l - 52)), (Z.max_r 0 (- (l - 52))) by lia.
    change (2 ^ 0) with 1. rewrite Z.mul_1_r.
    replace (- (l - 52)) with (52 - l) by lia.
    assert (0 < 2 ^ (52 - l)) by (apply Z.pow_pos_nonneg; lia).
    assert (2 ^ 53 < 1000 * maxTime) by reflexivity.
    split; nia.
  - unfold toNumber, roundQuotient.
    destruct n as [|n'|n']; try lia. set (n := Z.pos n') in *.
    unfold roundPositive. rewrite (binade_unit n Hn).
    pose proof (Z.log2_spec n Hn) as [L U].
    assert (53 <= Z.log2 n) by (apply Z.log2_le_pow2; lia).
    assert (Z.log2 n < 63).
    { apply Z.log2_lt_pow2; [lia|]. apply Z.le_lt_trans with maxUsec; [lia | reflexivity]. }
    set (l := Z.log2 n) in *.
    rewrite (Z.max_l (l - 52) (-1074)) by lia.
    rewrite (Z.max_l 0 (- (l - 52))), (Z.max_r 0 (l - 52)) by lia.
    change (2 ^ 0) with 1. rewrite !Z.mul_1_r, !Z.mul_1_l.
    assert (HT : 0 < 2 ^ (l - 52)) by (apply Z.pow_pos_nonneg; lia).
    assert (HTl : 2 ^ 52 * 2 ^ (l - 52) = 2 ^ l).
    { rewrite <- Z.pow_add_r by lia. f_equal. lia. }
    assert (HTd : 2 ^ (l - 52) * 2 ^ (62 - l) = 2 ^ 10).
    { rewrite <- Z.pow_add_r by lia. f_equal. lia. }
    assert (HTd' : 0 < 2 ^ (62 - l)) by (apply Z.pow_pos_nonneg; lia).
    set (T := 2 ^ (l - 52)) in *.
    set (m := halfEven n T).
    assert (Hm1 : 2 ^ 52 <= m) by (apply halfEven_ge; [lia | nia]).
    assert (Hm2 : m * T <= 1000 * maxTime).
    { destruct (Z.le_gt_cases n (1000 * maxTime)) as [Hd|Hd].
      - assert (m <= 8437500000000000 * 2 ^ (62 - l)).
        { apply halfEven_le; [lia|].
          replace (8437500000000000 * 2 ^ (62 - l) * T)
            with (8437500000000000 * (T * 2 ^ (62 - l))) by ring.
          rewrite HTd. exact Hd. }
        replace (1000 * maxTime) with (8437500000000000 * 2 ^ 10) by reflexivity.
        rewrite <- HTd. nia.
      - assert (l = 62).
        { assert (62 <= l); [|lia]. apply Z.log2_le_pow2; [lia|].
          apply Z.le_trans with (1000 * maxTime); [discriminate | lia]. }
        assert (ET : T = 1024) by (subst T; now rewrite H1).
        subst m. rewrite ET.
        destruct (Z.eq_dec n maxUsec) as [->|NE]; [discriminate|].
        assert (halfEven n 1024 < 8437500000000001).
        { apply halfEven_lt; [lia|]. unfold maxUsec, maxTime in *. lia. }
        unfold maxTime. lia. }
    replace (2 ^ 1024 <=? m * T) with false.
    2:{ symmetry. apply Z.leb_gt.
        apply Z.le_lt_trans with (1000 * maxTime); [lia | reflexivity]. }
    exists m, (l - 52). split; [reflexivity|].
    rewrite (Z.max_l 0 (- (l - 52))), (Z.max_r 0 (l - 52)) by lia.
    change (2 ^ 0) with 1. rewrite !Z.mul_1_r. fold T. split; [nia | lia].
Qed.

Lemma toNumber_beyond n :
  maxUsec < n ->
  toNumber n = Infinity
  \/ exists m e, toNumber n = Finite m e /\ 0 <= e /\ 1000 * maxTime + 1024 <= m * 2 ^ e.
Proof.
  intros Hn. unfold toNumber, roundQuotient.
  destruct n as [|n'|n']; try (unfold maxUsec in Hn; lia). set (n := Z.pos n') in *.
  assert (Hp : 0 < n) by reflexivity.
  unfold roundPositive. rewrite (binade_unit n Hp).
  pose proof (Z.log2_spec n Hp) as [L U].
  assert (62 <= Z.log2 n).
  { apply Z.log2_le_pow2; [lia|]. apply Z.le_trans with maxUsec; [discriminate | lia]. }
  set (l := Z.log2 n) in *.
  rewrite (Z.max_l (l - 52) (-1074)) by lia.
  rewrite (Z.max_l 0 (- (l - 52))), (Z.max_r 0 (l - 52)) by lia.
  change (2 ^ 0) with 1. rewrite !Z.mul_1_r, !Z.mul_1_l.
  assert (HT : 0 < 2 ^ (l - 52)) by (apply Z.pow_pos_nonneg; lia).
  assert (HTl : 2 ^ 52 * 2 ^ (l - 52) = 2 ^ l).
  { rewrite <- Z.pow_add_r by lia. f_equal. lia. }
  set (T := 2 ^ (l - 52)) in *.
  set (m := halfEven n T).
  destruct (2 ^ 1024 <=? m * T); [now left|]. right.
  exists m, (l - 52). split; [reflexivity|]. split; [lia|]. fold T.
  destruct (Z.eq_dec l 62) as [E|NE].
  - assert (ET : T = 1024) by (subst T; now rewrite E).
    assert (8437500000000000 < m).
    { apply halfEven_gt; [lia|]. rewrite ET. unfold maxUsec in Hn. lia. }
    rewrite ET. unfold maxTime. lia.
  - assert (2 ^ 52 <= m) by (apply halfEven_ge; [lia | nia]).
    assert (2 ^ 63 <= 2 ^ l) by (apply Z.pow_le_mono_r; lia).
    assert (1000 * maxTime + 1024 <= 2 ^ 63) by discriminate.
    nia.
Qed.

Lemma timeValue_none_nonneg n :
  0 <= n -> timeClip (divide (toNumber n) 1000) = None <-> maxUsec < n.
Proof.
  intros Hn. split.
  - intros E. destruct (Z.lt_ge_cases maxUsec n) as [|Hle]; [assumption|exfalso].
    destruct (Z.eq_dec n 0) as [->|]; [discriminate|].
    destruct (toNumber_within n ltac:(lia)) as (m & e & Em & Hlo & Hhi).
    rewrite Em in E. cbn [divide] in E. revert E.
    assert (0 < 2 ^ Z.max 0 (- e)) by (apply Z.pow_pos_nonneg; lia).
    apply timeClip_within; try nia; change (2 ^ 10) with 1024; nia.
  - intros Hbig. destruct (toNumber_beyond n Hbig) as [E | (m & e & E & He & Hm)];
      rewrite E; [reflexivity|].
    cbn [divide]. rewrite (Z.max_r 0 e), (Z.max_l 0 (- e)) by lia.
    change (2 ^ 0) with 1. rewrite Z.mul_1_r.
    apply timeClip_beyond; unfold maxTime in *; lia.
Qed.

Lemma toNumber_opp n : toNumber (- n) = negate (toNumber n).
Proof. apply roundQuotient_opp. Qed.

(** The Date of a timestamp is invalid from [maxUsec + 1] on, in either
    direction, and nowhere below. *)
Lemma timeValue_none n :
  timeClip (divide (toNumber n) 1000) = None <-> maxUsec < Z.abs n.
Proof.
  destruct (Z.le_gt_cases 0 n) as [Hp|Hneg].
  - rewrite Z.abs_eq by lia. now apply timeValue_none_nonneg.
  - rewrite Z.abs_neq by lia. rewrite <- (timeValue_none_nonneg (- n)) by lia.
    replace n with (- - n) at 1 by lia.
    rewrite toNumber_opp, divide_negate, timeClip_negate.
    destruct (timeClip (divide (toNumber (- n)) 1000)); cbn [option_map];
      split; congruence.
Qed.


Lemma newDate_none ts :
  newDate ts = None
  <-> match parseInt ts with
      | Some u => maxUsec < Z.abs u
      | None => True
      end.
Proof.
  unfold newDate. destruct (parseInt ts) as [u|]; [apply timeValue_none | tauto].
Qed.

(** From [2^53] on the double is not the integer, and the date can be
    that of another day: the last microsecond of 23 June 2527 is read as
    the first instant of the 24th.  One microsecond past the last instant
    a Date can hold is read as that instant. *)
Lemma newDate_rounds :
  newDate (js "17592249599999999") = Some 17592249600000
  /\ 17592249599999999 / 1000 = 17592249599999
  /\ isoDate 17592249599999 = js "2527-06-23"
  /\ isoDate 17592249600000 = js "2527-06-24"
  /\ newDate (js "8640000000000000001") = Some maxTime.
Proof. repeat split; vm_compute; reflexivity. Qed.

(** ** Dates, titles and file names *)

Lemma fixedDigits_length w n : length (fixedDigits w n) = w.
Proof.
  revert n. induction w as [|w IH]; intros n; [reflexivity|].
  simpl. rewrite length_app, IH. simpl. lia.
Qed.

Lemma fixedDigits_digits w n : forallb isDigit (fixedDigits w n) = true.
Proof.
  revert n. induction w as [|w IH]; intros n; [reflexivity|].
  cbn [fixedDigits]. rewrite forallb_app, IH. cbn [forallb andb]. rewrite andb_true_r.
  pose proof (Z.mod_pos_bound n 10 ltac:(lia)) as Hb.
  remember (n mod 10)%Z as r eqn:Er. clear Er.
  unfold isDigit. apply andb_true_iff. split; apply N.leb_le.
  - change 48%N with (Z.to_N 48). apply Z2N.inj_le; lia.
  - change 57%N with (Z.to_N 57). apply Z2N.inj_le; lia.
Qed.

Lemma digits_not_T s : forallb isDigit s = true -> forallb (fun c => negb (c =? 84)%N) s = true.
Proof.
  apply forallb_impl. intros c Hc. apply negb_true_iff.
  destruct (N.eqb_spec c 84) as [-> | _]; [discriminate | reflexivity].
Qed.

Lemma isoString_split t : isoString t = isoDate t ++ js "T" ++ isoTime t.
Proof.
  unfold isoString, isoDate, isoTime.
  destruct (civilFromDays (t / msPerDay)) as [[y m] d].
  cbv zeta. now rewrite <- !app_assoc.
Qed.

Lemma isoDate_no_T t : forallb (fun c => negb (c =? 84)%N) (isoDate t) = true.
Proof.
  unfold isoDate. destruct (civilFromDays (t / msPerDay)) as [[y m] d]. cbv zeta.
  rewrite !forallb_app, !(digits_not_T _ (fixedDigits_digits _ _)).
  destruct ((0 <=? y) && (y <=? 9999))%bool.
  - now rewrite (digits_not_T _ (fixedDigits_digits _ _)).
  - rewrite forallb_app, (digits_not_T _ (fixedDigits_digits _ _)).
    now destruct (y <? 0)%Z.
Qed.

Lemma takeWhile_until (p : codeunit -> bool) a c b :
  forallb p a = true -> p c = false -> takeWhile p (a ++ c :: b) = a.
Proof.
  intros Ha Hc. rewrite (takeWhile_app_all _ _ _ Ha). simpl. rewrite Hc. apply app_nil_r.
Qed.

Lemma beforeT_isoString t : beforeT (isoString t) = isoDate t.
Proof.
  rewrite isoString_split. unfold beforeT.
  change (js "T" ++ isoTime t) with (84%N :: isoTime t).
  apply takeWhile_until; [apply isoDate_no_T | reflexivity].
Qed.

Lemma isoDate_length t : (length (isoDate t) <= 13)%nat.
Proof.
  unfold isoDate. destruct (civilFromDays (t / msPerDay)) as [[y m] d]. cbv zeta.
  rewrite !length_app, !fixedDigits_length.
  destruct ((0 <=? y) && (y <=? 9999))%bool.
  - rewrite fixedDigits_length. simpl. lia.
  - rewrite length_app, fixedDigits_length. destruct (y <? 0)%Z; simpl; lia.
Qed.

Lemma two_digits n :
  (0 <= n < 100)%Z -> padStart0 2 (numberToString n) = fixedDigits 2 n.
Proof.
  intros Hn.
  assert (Hall : forallb (fun k => str_eqb (padStart0 2 (numberToString (Z.of_nat k)))
                                     (fixedDigits 2 (Z.of_nat k))) (seq 0 100) = true)
    by (vm_compute; reflexivity).
  rewrite forallb_forall in Hall.
  specialize (Hall (Z.to_nat n)). rewrite Z2Nat.id in Hall by lia.
  apply str_eqb_eq, Hall, in_seq. lia.
Qed.

Lemma forallb_firstn (p : codeunit -> bool) n s :
  forallb p s = true -> forallb p (firstn n s) = true.
Proof.
  revert s. induction n as [|n IH]; intros s E; [reflexivity|].
  destruct s as [|c r]; [reflexivity|]. simpl in *.
  apply andb_true_iff in E as [-> E]. now apply IH.
Qed.

Section TitlesAndNames.
Context {H : Host}.

Lemma getHours_range t : (0 <= getHours t < 24)%Z.
Proof. unfold getHours. apply Z.mod_pos_bound. lia. Qed.

Lemma getMinutes_range t : (0 <= getMinutes t < 60)%Z.
Proof. unfold getMinutes. apply Z.mod_pos_bound. lia. Qed.

(** X7: the file name of a note with a non-blank title is a base of at
    most 50 characters followed by [.md], and the base holds nothing but
    lower-case ASCII letters, digits, underscores and hyphens: no path
    separator, no white space, no dot. *)
Theorem generateFileName_of_title (jsonData : KeepNote) :
  hasText (title jsonData) = true ->
  exists base,
    generateFileName jsonData = Some (base ++ js ".md")
    /\ (length base <= 50)%nat
    /\ forallb isFileNameUnit base = true.
Proof.
  intros Ht. unfold generateFileName. rewrite Ht.
  set (t := trim _).
  set (x := replaceWith re_spaces (js "-") (replaceWith re_notWordSpaceHyphen [] t)).
  assert (Hx : forallb isWordHyphen x = true).
  { subst x. unfold re_notWordSpaceHyphen. rewrite replace_class_delete.
    apply (replaceWith_plus_forall isSpace
             (fun c => isWord c || isSpace c || (c =? HYPHEN)%N)); [|reflexivity|].
    - intros c Hc Hs. rewrite Hs, orb_false_r in Hc. exact Hc.
    - erewrite filter_ext; [apply forallb_filter_self|].
      intros c. apply negb_involutive. }
  rewrite (toLowerCase_ascii x (isWordHyphen_isAscii _ Hx)).
  exists (substring0 50 (map lowerUnit x)). repeat split.
  - apply firstn_le_length.
  - apply forallb_firstn. rewrite forallb_map_units. revert Hx. apply forallb_impl.
    intros c Hc. pose proof (isWordHyphen_ascii _ Hc) as Hlt.
    pose proof (ascii_check (fun c => implb (isWordHyphen c) (isFileNameUnit (lowerUnit c)))
                  eq_refl c Hlt) as E.
    cbv beta in E. now rewrite Hc in E.
Qed.


Lemma generateDisplayTitle_eq (jsonData : KeepNote) :
  generateDisplayTitle jsonData =
  match hasTimestamp jsonData with
  | None =>
      Some (js "Unknown Date"
              ++ if hasText (title jsonData) then js " - " ++ titleText jsonData else [])
  | Some ts =>
      match newDate ts with
      | None => None
      | Some t =>
          Some (isoDate t
                  ++ if hasText (title jsonData) then js " - " ++ titleText jsonData
                     else js "." ++ fixedDigits 2 (getHours t)
                            ++ js "." ++ fixedDigits 2 (getMinutes t))
      end
  end.
Proof.
  unfold generateDisplayTitle, titleText.
  destruct (hasTimestamp jsonData) as [ts|].
  - destruct (newDate ts) as [t|]; cbn [toISOString option_map]; [|reflexivity].
    rewrite beforeT_isoString.
    destruct (hasText (title jsonData)); [reflexivity|].
    pose proof (getHours_range t). pose proof (getMinutes_range t).
    rewrite !two_digits by lia. reflexivity.
  - destruct (hasText (title jsonData)); [reflexivity | now rewrite app_nil_r].
Qed.

(** X9: a note shows one date.  With a valid timestamp, the date that
    the Created marker carries before its [T] is the date the display
    title begins with, and the file name of an untitled note is that date
    followed by [-note.md]; the title of an untitled note goes on with a
    dot, two digits, a dot and two digits. *)
Theorem note_shows_one_date (jsonData : KeepNote) (ts : str) (t : Z) :
  hasTimestamp jsonData = Some ts -> newDate ts = Some t ->
  exists date time rest,
    forallb (fun c => negb (c =? 84)%N) date = true
    /\ createdMarker jsonData
       = Some (js "<!-- Created: " ++ date ++ js "T" ++ time ++ js " -->" ++ nl)
    /\ generateDisplayTitle jsonData = Some (date ++ rest)
    /\ (hasText (title jsonData) = false ->
        generateFileName jsonData = Some (date ++ js "-note.md")
        /\ exists hh mm,
             rest = js "." ++ hh ++ js "." ++ mm
             /\ length hh = 2%nat /\ length mm = 2%nat
             /\ forallb isDigit (hh ++ mm) = true).
Proof.
  intros Hts Ht.
  exists (isoDate t), (isoTime t),
    (if hasText (title jsonData) then js " - " ++ titleText jsonData
     else js "." ++ fixedDigits 2 (getHours t) ++ js "." ++ fixedDigits 2 (getMinutes t)).
  split; [apply isoDate_no_T|]. split; [|split].
  - unfold createdMarker. rewrite Hts, Ht. cbn [toISOString option_map].
    rewrite isoString_split. now rewrite <- !app_assoc.
  - now rewrite generateDisplayTitle_eq, Hts, Ht.
  - intros Hn. rewrite Hn. split.
    + unfold generateFileName. rewrite Hn, Hts, Ht.
      cbn [toISOString option_map]. rewrite beforeT_isoString.
      unfold substring0. rewrite firstn_all2.
      * now rewrite <- app_assoc.
      * pose proof (isoDate_length t). rewrite length_app. simpl. lia.
    + exists (fixedDigits 2 (getHours t)), (fixedDigits 2 (getMinutes t)).
      split; [reflexivity|]. rewrite !fixedDigits_length, forallb_app, !fixedDigits_digits.
      now repeat split.
Qed.

Lemma generateDisplayTitle_none jsonData :
  generateDisplayTitle jsonData = None <-> invalidTimestamp jsonData.
Proof.
  rewrite generateDisplayTitle_eq. unfold invalidTimestamp.
  destruct (hasTimestamp jsonData) as [ts|].
  - destruct (newDate ts) as [t|] eqn:E.
    + split; [discriminate|]. intros (ts' & [= <-] & E'). congruence.
    + split; [intros _; now exists ts | reflexivity].
  - split; [discriminate | intros (ts' & E & _); discriminate].
Qed.

Lemma createdMarker_none jsonData :
  createdMarker jsonData = None <-> invalidTimestamp jsonData.
Proof.
  unfold createdMarker, invalidTimestamp.
  destruct (hasTimestamp jsonData) as [ts|].
  - destruct (newDate ts) as [t|] eqn:E; cbn [toISOString option_map].
    + split; [discriminate|]. intros (ts' & [= <-] & E'). congruence.
    + split; [intros _; now exists ts | reflexivity].
  - split; [discriminate | intros (ts' & E & _); discriminate].
Qed.

(** X10: a note is left unconverted exactly when it carries a timestamp
    that gives an Invalid Date: then neither converter returns a document,
    title or no title, although a titled note still has a file name.  A
    timestamp gives an Invalid Date exactly when [parseInt] reads no
    integer from it, or one above [8640000000000000512] in magnitude: up
    to there the double rounds down to [8.64e18]. *)
Theorem invalid_timestamp_stops_conversion (validLabels : list str)
    (jsonData : KeepNote) (content : str) (copiedAttachments : list str) :
  (Hashtags.generateMarkdown validLabels jsonData content copiedAttachments = None
   <-> invalidTimestamp jsonData)
  /\ (Frontmatter.generateMarkdown jsonData content copiedAttachments = None
      <-> invalidTimestamp jsonData)
  /\ (generateFileName jsonData = None
      <-> invalidTimestamp jsonData /\ hasText (title jsonData) = false)
  /\ (invalidTimestamp jsonData
      <-> exists ts,
            hasTimestamp jsonData = Some ts
            /\ match parseInt ts with
               | Some u => (maxUsec < Z.abs u)%Z
               | None => True
               end).
Proof.
  pose proof (generateDisplayTitle_none jsonData) as Ht.
  pose proof (createdMarker_none jsonData) as Hm.
  split; [|split; [|split]]; split.
  - unfold Hashtags.generateMarkdown, Hashtags.assembleMarkdown.
    destruct (generateDisplayTitle jsonData); [|intros _; now apply Ht].
    destruct (createdMarker jsonData); [discriminate | intros _; now apply Hm].
  - intros Hi. unfold Hashtags.generateMarkdown, Hashtags.assembleMarkdown.
    apply Ht in Hi. now rewrite Hi.
  - unfold Frontmatter.generateMarkdown, Frontmatter.assembleMarkdown.
    destruct (generateDisplayTitle jsonData); [|intros _; now apply Ht].
    destruct (createdMarker jsonData); [discriminate | intros _; now apply Hm].
  - intros Hi. unfold Frontmatter.generateMarkdown, Frontmatter.assembleMarkdown.
    apply Ht in Hi. now rewrite Hi.
  - unfold generateFileName, invalidTimestamp.
    destruct (hasText (title jsonData)); [discriminate|].
    destruct (hasTimestamp jsonData) as [ts|]; [|discriminate].
    destruct (newDate ts) eqn:E; [discriminate|]. intros _. split; [now exists ts | reflexivity].
  - intros [(ts & Hts & Hd) Hn]. unfold generateFileName. now rewrite Hn, Hts, Hd.
  - intros (ts & Hts & Hd). exists ts. split; [exact Hts | now apply newDate_none].
  - intros (ts & Hts & Hd). exists ts. split; [exact Hts | now apply newDate_none].
Qed.
End TitlesAndNames.

Lemma generateFileName_of_title_witness :
  exists base,
    generateFileName (H := utcHost) dinnerPlans = Some (base ++ js ".md")
    /\ (length base <= 50)%nat
    /\ forallb isFileNameUnit base = true.
Proof. apply (generateFileName_of_title (H := utcHost) dinnerPlans). reflexivity. Defined.


(** The untitled note of 15 March 2024, 18:30 UTC, in Sydney: the date is
    that of UTC everywhere. *)
Lemma note_shows_one_date_witness :
  exists date time rest,
    forallb (fun c => negb (c =? 84)%N) date = true
    /\ createdMarker untitledNote
       = Some (js "<!-- Created: " ++ date ++ js "T" ++ time ++ js " -->" ++ nl)
    /\ generateDisplayTitle (H := sydneyHost) untitledNote = Some (date ++ rest)
    /\ (hasText (title untitledNote) = false ->
        generateFileName (H := sydneyHost) untitledNote = Some (date ++ js "-note.md")
        /\ exists hh mm,
             rest = js "." ++ hh ++ js "." ++ mm
             /\ length hh = 2%nat /\ length mm = 2%nat
             /\ forallb isDigit (hh ++ mm) = true).
Proof.
  apply (note_shows_one_date (H := sydneyHost) untitledNote
           (js "1710527400000000") 1710527400000); reflexivity.
Defined.

Lemma dropWhile_app_stop (p : codeunit -> bool) l c r :
  p c = false -> dropWhile p (l ++ c :: r) = dropWhile p l ++ c :: r.
Proof.
  intros Hc. induction l as [|d l IH]; simpl; [now rewrite Hc|].
  destruct (p d); [exact IH | reflexivity].
Qed.

Lemma trimEnd_split b :
  b = trimEnd b ++ rev (takeWhile isSpace (rev b))
  /\ forallb isSpace (rev (takeWhile isSpace (rev b))) = true.
Proof.
  split.
  - unfold trimEnd. rewrite <- rev_app_distr, takeWhile_dropWhile. symmetry. apply rev_involutive.
  - rewrite forallb_rev. apply takeWhile_all.
Qed.

(** Trimming a text that starts with a non-blank and holds a non-blank [c]
    keeps everything up to [c] and drops trailing white space only. *)
Lemma trim_keeps_head (h b : str) (c : codeunit) :
  startsWithSpace (h ++ [c]) = false -> isSpace c = false ->
  exists rest w,
    trim (h ++ c :: b) = (h ++ [c]) ++ rest
    /\ h ++ c :: b = trim (h ++ c :: b) ++ w
    /\ forallb isSpace w = true.
Proof.
  intros Hhead Hc.
  assert (Hstart : trimStart (h ++ c :: b) = h ++ c :: b).
  { unfold trimStart. apply dropWhile_fixed.
    destruct h as [|d h]; [exact Hc | exact Hhead]. }
  assert (Htrim : trim (h ++ c :: b) = (h ++ [c]) ++ trimEnd b).
  { unfold trim. rewrite Hstart. unfold trimEnd.
    rewrite rev_app_distr. cbn [rev]. rewrite <- app_assoc. cbn [app].
    rewrite (dropWhile_app_stop _ _ _ _ Hc), rev_app_distr. cbn [rev].
    now rewrite rev_involutive. }
  destruct (trimEnd_split b) as [Hb Hw].
  exists (trimEnd b), (rev (takeWhile isSpace (rev b))). repeat split.
  - exact Htrim.
  - rewrite Htrim, <- !app_assoc. cbn [app]. now rewrite <- Hb.
  - exact Hw.
Qed.

Section DocumentHead.
Context {H : Host}.

Lemma opensWith_intro (h tail : str) :
  startsWithSpace (h ++ [HASH]) = false ->
  opensWith (h ++ [HASH]) (Some (h ++ HASH :: tail)) (Some (trim (h ++ HASH :: tail))).
Proof.
  intros Hh. unfold opensWith.
  destruct (trim_keeps_head h tail HASH Hh eq_refl) as (rest & w & E1 & E2 & E3).
  exists rest, w. repeat split; [exact E1 | exact E2 | exact E3].
Qed.

(** X11: a returned document opens with its header, untouched by the
    final trim, which removes trailing white space only.  The front-matter
    converter's document opens with the [---] / [tags:] block, root tag
    first, followed by the [#] of the title line; the hashtag converter's
    opens with [# ], the escaped display title, a blank line and the [#]
    of the root hashtag. *)
Theorem generateMarkdown_opens_with_header (validLabels : list str)
    (jsonData : KeepNote) (content : str) (copiedAttachments : list str) :
  opensWith (frontMatter jsonData ++ js "#")
    (Frontmatter.assembleMarkdown jsonData content copiedAttachments)
    (Frontmatter.generateMarkdown jsonData content copiedAttachments)
  /\ (exists tagLines,
         frontMatter jsonData
         = js "---" ++ nl ++ js "tags:" ++ nl ++ js "  - 06-google-keep" ++ nl ++ tagLines)
  /\ match generateDisplayTitle jsonData with
     | Some displayTitle =>
         opensWith
           (js "# " ++ Hashtags.escapeInvalidHashtags validLabels displayTitle
              ++ nl ++ nl ++ js "#")
           (Hashtags.assembleMarkdown validLabels jsonData content copiedAttachments)
           (Hashtags.generateMarkdown validLabels jsonData content copiedAttachments)
     | None => True
     end.
Proof.
  split; [|split].
  - unfold Frontmatter.generateMarkdown, Frontmatter.assembleMarkdown.
    destruct (generateDisplayTitle jsonData) as [displayTitle|]; [|exact I].
    destruct (createdMarker jsonData) as [marker|]; [|exact I].
    cbn [option_map].
    set (tail := js " " ++ displayTitle ++ nl ++ nl ++ contentSection content
                   ++ attachmentsSection copiedAttachments ++ marker).
    replace (js "---" ++ nl ++ js "tags:" ++ nl
               ++ concat (map (fun tag => js "  - " ++ tag ++ nl) (Frontmatter.yamlTags jsonData))
               ++ js "---" ++ nl ++ nl ++ js "# " ++ displayTitle ++ nl ++ nl
               ++ contentSection content ++ attachmentsSection copiedAttachments ++ marker)
      with (frontMatter jsonData ++ HASH :: tail)
      by (unfold frontMatter, tail; now rewrite <- !app_assoc).
    apply opensWith_intro. reflexivity.
  - unfold frontMatter, Frontmatter.yamlTags. cbn [map concat].
    eexists. rewrite <- !app_assoc. reflexivity.
  - unfold Hashtags.generateMarkdown, Hashtags.assembleMarkdown.
    destruct (generateDisplayTitle jsonData) as [displayTitle|]; [|exact I].
    destruct (createdMarker jsonData) as [marker|]; [|exact I].
    cbn [option_map].
    set (title := Hashtags.escapeInvalidHashtags validLabels displayTitle).
    assert (Htags : exists more,
               joinSpace (Hashtags.generateHashtags jsonData) = HASH :: more).
    { unfold Hashtags.generateHashtags.
      destruct (map Hashtags.labelHashtag (labelNames jsonData)); eexists; reflexivity. }
    destruct Htags as (more & ->).
    replace (js "# " ++ title ++ nl ++ nl ++ (HASH :: more) ++ nl ++ nl
               ++ contentSection content ++ attachmentsSection copiedAttachments ++ marker)
      with ((js "# " ++ title ++ nl ++ nl) ++ HASH :: (more ++ nl ++ nl
               ++ contentSection content ++ attachmentsSection copiedAttachments ++ marker))
      by (now rewrite <- !app_assoc).
    replace (js "# " ++ title ++ nl ++ nl ++ js "#")
      with ((js "# " ++ title ++ nl ++ nl) ++ [HASH])
      by (now rewrite <- !app_assoc).
    apply opensWith_intro. reflexivity.
Qed.
End DocumentHead.

(** ** What a tag is made of *)

Lemma replaceWith_unit_removed (x : codeunit) (lit s : str) :
  forallb (fun c => negb (c =? x)%N) lit = true ->
  forallb (fun c => negb (c =? x)%N) (replaceWith (m_lit [x]) lit s) = true.
Proof.
  intros Hlit. unfold replaceWith. induction s as [|c r IH]; [reflexivity|].
  rewrite replace_cons. unfold m_lit at 1. cbn [isPrefix length].
  rewrite andb_true_r. destruct (x =? c)%N eqn:E.
  - cbn beta. cbn [skipn]. rewrite forallb_app.
    apply andb_true_iff. split; [exact Hlit | exact IH].
  - cbn [forallb]. rewrite N.eqb_sym, E. exact IH.
Qed.

Lemma forallb_ext_units (p q : codeunit -> bool) s :
  (forall c, p c = q c) -> forallb p s = forallb q s.
Proof. intros E. induction s as [|c r IH]; [reflexivity|]. simpl. now rewrite E, IH. Qed.

Lemma slash_lowerUnit c : (lowerUnit c =? 47)%N = (c =? 47)%N.
Proof.
  rewrite (N.eqb_sym (lowerUnit c)), (N.eqb_sym c). now apply eqb_lowerUnit.
Qed.

Lemma isUpper_lowerUnit c : isUpper (lowerUnit c) = false.
Proof.
  unfold lowerUnit. destruct (isUpper c) eqn:E; [|exact E].
  apply isUpper_bounds in E. unfold isUpper.
  replace (c + 32 <=? 90)%N with false by (symmetry; apply N.leb_gt; lia).
  apply andb_false_r.
Qed.

Section TagShape.
Context {H : Host}.

Lemma rewriteLabel_no_space slash sep name :
  forallb (fun c => negb (isSpace c)) (rewriteLabel slash sep name) = true.
Proof.
  unfold rewriteLabel.
  apply (replaceWith_plus_forall isSpace (fun _ => true)).
  - intros c _ ->. reflexivity.
  - reflexivity.
  - now apply forallb_const_true.
Qed.

Lemma lower_rewriteLabel slash sep name :
  isAscii slash = true -> isAscii sep = true -> isAscii name = true ->
  toLowerCase (rewriteLabel slash sep name) = map lowerUnit (rewriteLabel slash sep name).
Proof. intros. apply toLowerCase_ascii. now apply rewriteLabel_ascii. Qed.

(** X12: a slash in a label never nests the tag.  For a label name in
    ASCII, the hashtag of [generateHashtags] holds no [/] at all, and the
    tag path of the front-matter converter holds none either unless the
    name holds a hyphen (a [/] comes from the separator [ - ] only). *)
Theorem slash_in_label_does_not_nest (name : str) :
  isAscii name = true ->
  forallb (fun c => negb (c =? 47)%N) (Hashtags.labelHashtag name) = true
  /\ (forallb (fun c => negb (c =? HYPHEN)%N) name = true ->
      forallb (fun c => negb (c =? 47)%N) (Frontmatter.labelTag [] name) = true).
Proof.
  intros Hname. split.
  - change (Hashtags.labelHashtag name)
      with (js "#" ++ toLowerCase (rewriteLabel (js " and ") (js "-") name)).
    rewrite lower_rewriteLabel by (reflexivity || exact Hname).
    cbn [js map list_ascii_of_string app forallb]. rewrite forallb_map_units.
    cbn [andb]. change (N_of_ascii "#" =? 47)%N with false. cbn [negb andb].
    rewrite (forallb_ext_units _ (fun c => negb (c =? 47)%N))
      by (intros c; now rewrite slash_lowerUnit).
    unfold rewriteLabel.
    apply forallb_replaceWith; [reflexivity|].
    apply forallb_replaceWith; [reflexivity|].
    now apply (replaceWith_unit_removed 47%N).
  - intros Hhyph.
    change (Frontmatter.labelTag [] name)
      with (toLowerCase (rewriteLabel (js " & ") (js "/") name)).
    rewrite lower_rewriteLabel by (reflexivity || exact Hname).
    rewrite forallb_map_units.
    rewrite (forallb_ext_units _ (fun c => negb (c =? 47)%N))
      by (intros c; now rewrite slash_lowerUnit).
    unfold rewriteLabel.
    apply forallb_replaceWith; [reflexivity|].
    rewrite replace_sep_absent.
    + now apply (replaceWith_unit_removed 47%N).
    + apply forallb_replaceWith; [reflexivity | exact Hhyph].
Qed.

(** X13: the tag of a label name in ASCII holds no white space and no
    upper-case letter, in both converters. *)
Theorem tag_without_space_or_capital (root name : str) :
  isAscii name = true ->
  forallb (fun c => negb (isSpace c) && negb (isUpper c))
    (skipn (length root) (Frontmatter.labelTag root name)) = true
  /\ forallb (fun c => negb (isSpace c) && negb (isUpper c))
       (Hashtags.labelHashtag name) = true.
Proof.
  intros Hname.
  assert (Hlow : forall slash sep,
             isAscii slash = true -> isAscii sep = true ->
             forallb (fun c => negb (isSpace c) && negb (isUpper c))
               (toLowerCase (rewriteLabel slash sep name)) = true).
  { intros slash sep Hs Hp. rewrite lower_rewriteLabel by assumption.
    rewrite forallb_map_units.
    rewrite (forallb_ext_units _ (fun c => negb (isSpace c)))
      by (intros c; now rewrite isSpace_lowerUnit, isUpper_lowerUnit, andb_true_r).
    apply rewriteLabel_no_space. }
  split.
  - change (Frontmatter.labelTag root name)
      with (root ++ toLowerCase (rewriteLabel (js " & ") (js "/") name)).
    rewrite skipn_app_exact. now apply Hlow.
  - change (Hashtags.labelHashtag name)
      with (HASH :: toLowerCase (rewriteLabel (js " and ") (js "-") name)).
    cbn [forallb]. now rewrite Hlow.
Qed.
End TagShape.

Lemma slash_in_label_does_not_nest_witness :
  forallb (fun c => negb (c =? 47)%N)
    (Hashtags.labelHashtag (H := utcHost) (js "Work/Life")) = true
  /\ forallb (fun c => negb (c =? 47)%N)
       (Frontmatter.labelTag (H := utcHost) [] (js "Work/Life")) = true.
Proof.
  destruct (slash_in_label_does_not_nest (H := utcHost) (js "Work/Life") eq_refl)
    as [Hh Ht].
  split; [exact Hh | exact (Ht eq_refl)].
Defined.

Lemma tag_without_space_or_capital_witness :
  forallb (fun c => negb (isSpace c) && negb (isUpper c))
    (skipn (length Frontmatter.tagPrefix)
       (Frontmatter.labelTag (H := utcHost) Frontmatter.tagPrefix (js "Interior  Design")))
  = true
  /\ forallb (fun c => negb (isSpace c) && negb (isUpper c))
       (Hashtags.labelHashtag (H := utcHost) (js "Interior  Design")) = true.
Proof.
  apply (tag_without_space_or_capital (H := utcHost) Frontmatter.tagPrefix
           (js "Interior  Design")).
  reflexivity.
Defined.

(** ** Attachments *)

Lemma lowerUnit_dot c : lowerUnit c = 46%N -> c = 46%N.
Proof.
  intros E. pose proof (eqb_lowerUnit 46%N c eq_refl eq_refl) as Hq.
  rewrite E, N.eqb_refl in Hq. symmetry in Hq. apply N.eqb_eq in Hq. now symmetry.
Qed.

(** X14: what counts as an image.  A file name that ends with a dot and
    one of [jpg jpeg png gif bmp svg webp], in any mix of cases, is
    embedded as [![](name)]; a file name without any dot is linked as
    [[name](name)]. *)
Theorem isImage_by_extension (base ext name : str) :
  In (map lowerUnit ext) imageExtensions ->
  forallb (fun c => negb (c =? 46)%N) name = true ->
  attachmentLine (base ++ js "." ++ ext)
  = js "![](" ++ (base ++ js "." ++ ext) ++ js ")" ++ nl ++ nl
  /\ attachmentLine name = js "[" ++ name ++ js "](" ++ name ++ js ")" ++ nl ++ nl.
Proof.
  intros Hext Hname. split.
  - unfold attachmentLine.
    replace (isImage (base ++ js "." ++ ext)) with true; [reflexivity|].
    symmetry. apply existsb_exists. exists (map lowerUnit ext). split; [exact Hext|].
    unfold endsWithNoCase. apply andb_true_iff. split.
    + rewrite !length_app, length_map.
      replace (length base + (length (js ".") + length ext)
               - (length (js ".") + length ext))%nat with (length base) by lia.
      rewrite skipn_app_exact, map_app. apply str_eqb_refl.
    + apply Nat.leb_le. rewrite !length_app, length_map. lia.
  - unfold attachmentLine.
    replace (isImage name) with false; [reflexivity|].
    symmetry. unfold isImage. destruct (existsb _ _) eqn:E; [|reflexivity]. exfalso.
    apply existsb_exists in E as (e & _ & E). unfold endsWithNoCase in E.
    apply andb_true_iff in E as [E _]. apply str_eqb_eq in E.
    pose proof (forallb_skipn _ (length name - length (js "." ++ e)) _ Hname) as Hs.
    destruct (skipn (length name - length (js "." ++ e)) name) as [|c r]; [discriminate|].
    injection E as Ec _. apply lowerUnit_dot in Ec. subst c. discriminate.
Qed.

Lemma isImage_by_extension_witness :
  attachmentLine (js "photo" ++ js "." ++ js "JPG")
  = js "![](" ++ (js "photo" ++ js "." ++ js "JPG") ++ js ")" ++ nl ++ nl
  /\ attachmentLine (js "README") = js "[" ++ js "README" ++ js "](" ++ js "README" ++ js ")" ++ nl ++ nl.
Proof.
  apply (isImage_by_extension (js "photo") (js "JPG") (js "README")).
  - simpl. tauto.
  - reflexivity.
Defined.

(** ** The cheerio renderer *)

Lemma two_newlines_run r :
  match r with b :: c :: _ => (b =? LF)%N && (c =? LF)%N | _ => false end
  = (2 <=? length (takeWhile (fun c => (c =? LF)%N) r))%nat.
Proof.
  destruct r as [|b [|c r]]; simpl; [reflexivity | |].
  - destruct (b =? LF)%N; reflexivity.
  - destruct (b =? LF)%N; [|reflexivity]. destruct (c =? LF)%N; reflexivity.
Qed.

Lemma tripleNewline_cons a r :
  tripleNewline (a :: r)
  = ((a =? LF)%N && (2 <=? length (takeWhile (fun c => (c =? LF)%N) r))%nat)
    || tripleNewline r.
Proof. cbn [tripleNewline]. now rewrite two_newlines_run. Qed.

Lemma collapse_cons c r :
  replaceWith re_newlines3 (nl ++ nl) (c :: r) =
  if (3 <=? length (takeWhile (fun c => (c =? LF)%N) (c :: r)))%nat
  then LF :: LF :: replaceWith re_newlines3 (nl ++ nl)
                     (dropWhile (fun c => (c =? LF)%N) (c :: r))
  else c :: replaceWith re_newlines3 (nl ++ nl) r.
Proof.
  unfold replaceWith. rewrite replace_cons. unfold re_newlines3 at 1.
  destruct (3 <=? length (takeWhile (fun c => (c =? LF)%N) (c :: r)))%nat eqn:E;
    [|reflexivity].
  destruct (length (takeWhile (fun c => (c =? LF)%N) (c :: r))) as [|n] eqn:En;
    [discriminate|].
  change (skipn n r) with (skipn (S n) (c :: r)).
  rewrite <- En, dropWhile_as_skipn. reflexivity.
Qed.

Lemma newline_run_cons x :
  length (takeWhile (fun c => (c =? LF)%N) (LF :: x))
  = S (length (takeWhile (fun c => (c =? LF)%N) x)).
Proof. reflexivity. Qed.

Lemma newline_run_after_drop s :
  length (takeWhile (fun c => (c =? LF)%N) (dropWhile (fun c => (c =? LF)%N) s)) = O.
Proof.
  pose proof (dropWhile_head (fun c => (c =? LF)%N) s) as Hd.
  destruct (dropWhile (fun c => (c =? LF)%N) s); [reflexivity|].
  cbn [takeWhile]. now rewrite Hd.
Qed.

Lemma dropWhile_shorter s :
  (3 <= length (takeWhile (fun c => (c =? LF)%N) s))%nat ->
  (length (dropWhile (fun c => (c =? LF)%N) s) < length s)%nat.
Proof.
  intros E. pose proof (takeWhile_dropWhile (fun c => (c =? LF)%N) s) as Hsplit.
  apply (f_equal (@length _)) in Hsplit. rewrite length_app in Hsplit. lia.
Qed.

Lemma newline_run_collapse :
  forall s : str,
    (length (takeWhile (fun c => (c =? LF)%N) (replaceWith re_newlines3 (nl ++ nl) s))
     <= Nat.min 2 (length (takeWhile (fun c => (c =? LF)%N) s)))%nat.
Proof.
  induction s as [s IH] using str_length_ind.
  destruct s as [|c r]; [simpl; lia|].
  rewrite collapse_cons.
  destruct (3 <=? length (takeWhile (fun c => (c =? LF)%N) (c :: r)))%nat eqn:E.
  - apply Nat.leb_le in E.
    pose proof (IH _ (dropWhile_shorter _ E)) as Hrest.
    rewrite newline_run_after_drop in Hrest.
    rewrite !newline_run_cons. lia.
  - apply Nat.leb_gt in E. specialize (IH r ltac:(simpl; lia)).
    cbn [takeWhile] in *. destruct (c =? LF)%N; cbn [length] in *; lia.
Qed.

Lemma collapse_no_triple :
  forall s : str, tripleNewline (replaceWith re_newlines3 (nl ++ nl) s) = false.
Proof.
  induction s as [s IH] using str_length_ind.
  destruct s as [|c r]; [reflexivity|].
  rewrite collapse_cons.
  destruct (3 <=? length (takeWhile (fun c => (c =? LF)%N) (c :: r)))%nat eqn:E.
  - apply Nat.leb_le in E.
    pose proof (newline_run_collapse (dropWhile (fun c => (c =? LF)%N) (c :: r))) as Hrun.
    rewrite newline_run_after_drop in Hrun.
    rewrite !tripleNewline_cons, (IH _ (dropWhile_shorter _ E)).
    rewrite newline_run_cons.
    replace (length (takeWhile (fun c => (c =? LF)%N)
                       (replaceWith re_newlines3 (nl ++ nl)
                          (dropWhile (fun c => (c =? LF)%N) (c :: r))))) with O by lia.
    reflexivity.
  - apply Nat.leb_gt in E.
    pose proof (newline_run_collapse r) as Hrun.
    rewrite tripleNewline_cons, (IH r) by (simpl; lia).
    rewrite orb_false_r. destruct (c =? LF)%N eqn:Ec; [|reflexivity].
    cbn [takeWhile] in E. rewrite Ec in E. cbn [length] in E.
    apply Nat.leb_gt. lia.
Qed.

Lemma tripleNewline_tail c r : tripleNewline (c :: r) = false -> tripleNewline r = false.
Proof. cbn [tripleNewline]. intros E. now apply orb_false_iff in E as [_ E]. Qed.

Lemma tripleNewline_dropWhile p s :
  tripleNewline s = false -> tripleNewline (dropWhile p s) = false.
Proof.
  induction s as [|c r IH]; [reflexivity|]. intros E. simpl dropWhile.
  destruct (p c); [apply IH, (tripleNewline_tail _ _ E) | exact E].
Qed.

Lemma tripleNewline_prefix a b :
  tripleNewline (a ++ b) = false -> tripleNewline a = false.
Proof.
  induction a as [|c a IH]; [reflexivity|].
  cbn [app tripleNewline]. intros E. apply orb_false_iff in E as [E1 E2].
  rewrite (IH E2), orb_false_r.
  destruct (c =? LF)%N; [|reflexivity]. cbn [andb] in *.
  destruct a as [|x [|y a]]; [reflexivity | reflexivity | exact E1].
Qed.

Lemma tripleNewline_trim s : tripleNewline s = false -> tripleNewline (trim s) = false.
Proof.
  intros E. unfold trim.
  pose proof (tripleNewline_dropWhile isSpace s E) as E'. fold (trimStart s) in E'.
  destruct (trimEnd_split (trimStart s)) as [Hsplit _].
  rewrite Hsplit in E'. exact (tripleNewline_prefix _ _ E').
Qed.

Lemma lowerUnit_target c d : lowerUnit c = d -> isLower d = false -> c = d.
Proof.
  unfold lowerUnit. destruct (isUpper c) eqn:E; [|easy].
  intros <- Hl. apply isUpper_bounds in E. unfold isLower in Hl.
  apply andb_false_iff in Hl as [Hl | Hl]; apply N.leb_gt in Hl; lia.
Qed.

Section Renderer.
Context {H : Host}.

Lemma heading_level tagName :
  isAscii tagName = true ->
  existsb (str_eqb (toLowerCase tagName))
    [js "h1"; js "h2"; js "h3"; js "h4"; js "h5"; js "h6"] = true ->
  Frontmatter.repeatHash (parseInt (skipn 1 tagName)) <> None.
Proof.
  intros Ha E. rewrite (toLowerCase_ascii _ Ha) in E.
  apply existsb_exists in E as (e & Hin & E). apply str_eqb_eq in E.
  destruct tagName as [|a [|b [|c t]]];
    try (simpl in Hin; repeat destruct Hin as [<- | Hin]; try discriminate; now destruct Hin).
  cbn [map] in E. cbn [skipn].
  simpl in Hin.
  repeat destruct Hin as [<- | Hin];
    try (injection E as _ Eb; apply lowerUnit_target in Eb; [subst b; discriminate | reflexivity]).
  destruct Hin.
Qed.

Lemma renderNode_total n :
  match n with Element tagName _ _ => isAscii tagName = true | _ => True end ->
  Frontmatter.renderNode n <> None.
Proof.
  destruct n as [data | tagName attribs children |]; intros Ha; [discriminate | | discriminate].
  unfold Frontmatter.renderNode.
  destruct (existsb _ _) eqn:Eh.
  - pose proof (heading_level tagName Ha Eh) as Hl.
    destruct (Frontmatter.repeatHash _); [discriminate | congruence].
  - repeat match goal with
           | |- (if ?b then _ else _) <> None => destruct b
           | |- match ?x with _ => _ end <> None => destruct x
           end; discriminate.
Qed.

Lemma renderNodes_total nodes :
  asciiTags nodes -> Frontmatter.renderNodes nodes <> None.
Proof.
  induction 1 as [|n rest Hn _ IH]; [discriminate|].
  cbn [Frontmatter.renderNodes].
  pose proof (renderNode_total n Hn).
  destruct (Frontmatter.renderNode n); [|congruence].
  destruct (Frontmatter.renderNodes rest); [discriminate | congruence].
Qed.

Lemma removeStyleScript_tag n :
  match removeStyleScript n with
  | Element tagName _ _ =>
      match n with Element tagName' _ _ => tagName = tagName' | _ => False end
  | _ => True
  end.
Proof. destruct n; simpl; trivial. Qed.

Lemma asciiTags_contents body :
  asciiTags body ->
  asciiTags (filter (fun c => negb (isStyleOrScript c)) (map removeStyleScript body)).
Proof.
  unfold asciiTags. induction 1 as [|n rest Hn _ IH]; [constructor|].
  cbn [map filter]. destruct (negb _); [|exact IH].
  constructor; [|exact IH].
  pose proof (removeStyleScript_tag n) as Ht.
  destruct (removeStyleScript n) as [|t a c|]; trivial.
  destruct n; try contradiction. now subst.
Qed.

(** X15: on a body whose tag names are ASCII the cheerio renderer returns
    a text; the text has no white space at either end and nowhere three
    newlines in a row. *)
Theorem htmlToMarkdown_clean (body : list node) :
  asciiTags body ->
  exists markdown,
    Frontmatter.htmlToMarkdown body = Some markdown
    /\ startsWithSpace markdown = false
    /\ endsWithSpace markdown = false
    /\ tripleNewline markdown = false.
Proof.
  intros Hb. unfold Frontmatter.htmlToMarkdown.
  pose proof (renderNodes_total _ (asciiTags_contents _ Hb)) as Ht.
  destruct (Frontmatter.renderNodes _) as [md|]; [|congruence].
  eexists. split; [reflexivity|]. repeat split.
  - apply trim_no_leading_space.
  - apply trim_no_trailing_space.
  - apply tripleNewline_trim, collapse_no_triple.
Qed.
End Renderer.

Lemma htmlToMarkdown_clean_witness :
  exists markdown,
    Frontmatter.htmlToMarkdown (H := utcHost) sampleBody = Some markdown
    /\ startsWithSpace markdown = false
    /\ endsWithSpace markdown = false
    /\ tripleNewline markdown = false.
Proof.
  apply (htmlToMarkdown_clean (H := utcHost) sampleBody).
  repeat constructor.
Defined.

Lemma rev_split (p : codeunit -> bool) s :
  s = rev (dropWhile p (rev s)) ++ rev (takeWhile p (rev s)).
Proof.
  rewrite <- rev_app_distr, takeWhile_dropWhile. symmetry. apply rev_involutive.
Qed.

Lemma basename_split path :
  exists dir fileName slashes,
    path = dir ++ fileName ++ slashes
    /\ basename path = fileName
    /\ forallb (fun c => negb (c =? 47)%N) fileName = true
    /\ forallb (fun c => (c =? 47)%N) slashes = true
    /\ (dir = [] \/ exists d, dir = d ++ [47%N]).
Proof.
  unfold basename.
  set (stripped := rev (dropWhile (fun c => (c =? 47)%N) (rev path))).
  exists (rev (dropWhile (fun c => negb (c =? 47)%N) (rev stripped))),
         (rev (takeWhile (fun c => negb (c =? 47)%N) (rev stripped))),
         (rev (takeWhile (fun c => (c =? 47)%N) (rev path))).
  repeat split.
  - rewrite app_assoc, <- (rev_split _ stripped). apply rev_split.
  - rewrite forallb_rev. apply takeWhile_all.
  - rewrite forallb_rev. apply takeWhile_all.
  - pose proof (dropWhile_head (fun c => negb (c =? 47)%N) (rev stripped)) as Hd.
    destruct (dropWhile (fun c => negb (c =? 47)%N) (rev stripped)) as [|c r];
      [now left|].
    right. exists (rev r). cbn [rev]. apply negb_false_iff, N.eqb_eq in Hd. now subst c.
Qed.

Section RendererDetails.
Context {H : Host}.

Lemma renderNode_img attribs children :
  Frontmatter.renderNode (Element (js "img") attribs children)
  = match attr attribs (js "src") with
    | Some ((_ :: _) as src) => Some (js "![](" ++ basename src ++ js ")")
    | _ => Some []
    end.
Proof. reflexivity. Qed.

(** X16: of an image only the file name is kept.  An [img] with a source
    is rendered as [![](name)], where the source is a directory part
    (empty or ending in a slash), then the name, then trailing slashes if
    any; the name holds no slash. *)
Theorem img_keeps_file_name (attribs : list (str * str)) (children : list node)
    (src : str) :
  attr attribs (js "src") = Some src ->
  src <> [] ->
  exists dir fileName slashes,
    src = dir ++ fileName ++ slashes
    /\ forallb (fun c => negb (c =? 47)%N) fileName = true
    /\ forallb (fun c => (c =? 47)%N) slashes = true
    /\ (dir = [] \/ exists d, dir = d ++ [47%N])
    /\ Frontmatter.renderNode (Element (js "img") attribs children)
       = Some (js "![](" ++ fileName ++ js ")").
Proof.
  intros Hsrc Hne.
  destruct (basename_split src) as (dir & fileName & slashes & Hs & Hb & Hf & Hsl & Hd).
  exists dir, fileName, slashes. repeat split; try assumption.
  rewrite renderNode_img, Hsrc. destruct src as [|c r]; [congruence|].
  rewrite <- Hb. reflexivity.
Qed.

Lemma collapse_fixed s :
  tripleNewline s = false -> replaceWith re_newlines3 (nl ++ nl) s = s.
Proof.
  induction s as [|c r IH]; [reflexivity|]. intros E.
  rewrite collapse_cons. rewrite tripleNewline_cons in E.
  apply orb_false_iff in E as [E1 E2].
  replace (3 <=? length (takeWhile (fun c => (c =? LF)%N) (c :: r)))%nat with false.
  - now rewrite (IH E2).
  - symmetry. apply Nat.leb_gt. cbn [takeWhile].
    destruct (c =? LF)%N; cbn [length]; [|lia].
    cbn [andb] in E1. apply Nat.leb_gt in E1. lia.
Qed.

(** X17: the cheerio renderer escapes nothing.  A body that is one text
    node whose text has no white space around it and no three newlines in
    a row is returned as it is, hashtags included. *)
Theorem htmlToMarkdown_text_verbatim (data : str) :
  startsWithSpace data = false -> endsWithSpace data = false ->
  tripleNewline data = false ->
  Frontmatter.htmlToMarkdown [TextNode data] = Some data.
Proof.
  intros Hs He Ht. unfold Frontmatter.htmlToMarkdown.
  cbn [map removeStyleScript filter isStyleOrScript negb Frontmatter.renderNodes
         Frontmatter.renderNode textContent option_map].
  rewrite app_nil_r, (trim_fixed _ Hs He), (collapse_fixed _ Ht).
  now rewrite (trim_fixed _ Hs He).
Qed.
End RendererDetails.

Lemma img_keeps_file_name_witness :
  exists dir fileName slashes,
    js "https://keep.example/media/photo.png" = dir ++ fileName ++ slashes
    /\ forallb (fun c => negb (c =? 47)%N) fileName = true
    /\ forallb (fun c => (c =? 47)%N) slashes = true
    /\ (dir = [] \/ exists d, dir = d ++ [47%N])
    /\ Frontmatter.renderNode (H := utcHost)
         (Element (js "img") [(js "src", js "https://keep.example/media/photo.png")] [])
       = Some (js "![](" ++ fileName ++ js ")").
Proof.
  apply (img_keeps_file_name (H := utcHost)
           [(js "src", js "https://keep.example/media/photo.png")] []
           (js "https://keep.example/media/photo.png")).
  - reflexivity.
  - discriminate.
Defined.

Lemma htmlToMarkdown_text_verbatim_witness :
  Frontmatter.htmlToMarkdown (H := utcHost) [TextNode (js "buy #milk and #eggs")]
  = Some (js "buy #milk and #eggs").
Proof.
  apply (htmlToMarkdown_text_verbatim (H := utcHost) (js "buy #milk and #eggs"));
    reflexivity.
Defined.

(** ** The path of the content file *)

Lemma json_prefix_overlap (s rest : str) :
  s <> [] -> isPrefix (js ".json") s = false ->
  isPrefix (js ".json") (s ++ js ".json" ++ rest) = false.
Proof.
  intros Hne Hs.
  destruct s as [|a [|b [|c [|d [|e s]]]]]; [congruence | | | | |].
  - simpl. now rewrite andb_false_r.
  - simpl. now rewrite !andb_false_r.
  - simpl. now rewrite !andb_false_r.
  - simpl. now rewrite !andb_false_r.
  - simpl in *. exact Hs.
Qed.

(** X18: the content file [convertNote] looks for is the path with its
    first [.json] turned into [.html].  Where the path holds no [.json]
    before that one the rest of the path is kept as it is, so a note
    [stem.json] is paired with [stem.html] when [stem] holds no [.json],
    and with a file under another directory when it does. *)
Theorem htmlFilePath_first_json (stem rest : str) :
  occursIn (js ".json") stem = false ->
  htmlFilePath (stem ++ js ".json" ++ rest) = stem ++ js ".html" ++ rest.
Proof.
  unfold htmlFilePath. induction stem as [|c r IH]; intros Hocc.
  - destruct rest; reflexivity.
  - cbn [occursIn] in Hocc. apply orb_false_iff in Hocc as [Hp Hr].
    cbn [app replaceFirst].
    change (c :: r ++ js ".json" ++ rest) with ((c :: r) ++ js ".json" ++ rest).
    rewrite (json_prefix_overlap (c :: r) rest ltac:(discriminate) Hp).
    cbn [app]. now rewrite (IH Hr).
Qed.

Lemma htmlFilePath_first_json_witness :
  htmlFilePath (js "/Takeout/Keep/my" ++ js ".json" ++ js ".notes/idea.json")
  = js "/Takeout/Keep/my" ++ js ".html" ++ js ".notes/idea.json".
Proof.
  apply (htmlFilePath_first_json (js "/Takeout/Keep/my") (js ".notes/idea.json")).
  reflexivity.
Defined.

(** ** Escaping the title *)

Lemma isoDate_no_hash t : forallb (fun c => negb (c =? HASH)%N) (isoDate t) = true.
Proof.
  assert (Hd : forall w n, forallb (fun c => negb (c =? HASH)%N) (fixedDigits w n) = true).
  { intros w n. pose proof (fixedDigits_digits w n) as E. revert E. apply forallb_impl.
    intros c Hc. apply negb_true_iff.
    destruct (N.eqb_spec c HASH) as [-> | _]; [discriminate | reflexivity]. }
  unfold isoDate. destruct (civilFromDays (t / msPerDay)) as [[y m] d]. cbv zeta.
  rewrite !forallb_app, !Hd.
  destruct ((0 <=? y) && (y <=? 9999))%bool.
  - now rewrite Hd.
  - rewrite forallb_app, Hd. now destruct (y <? 0)%Z.
Qed.

Section TitleEscaping.
Context {H : Host}.
Variable validLabels : list str.

Lemma esc_app_plain a b :
  forallb (fun c => negb (c =? HASH)%N) a = true ->
  Hashtags.escapeInvalidHashtags validLabels (a ++ b)
  = a ++ Hashtags.escapeInvalidHashtags validLabels b.
Proof.
  induction a as [|c a IH]; [reflexivity|]. simpl. intros E.
  apply andb_true_iff in E as [Ec Ea]. apply negb_true_iff, N.eqb_neq in Ec.
  rewrite (esc_plain validLabels _ _ (re_hashtag_not_hash _ _ Ec)). now rewrite IH.
Qed.

(** X19: in the heading of the hashtag converter only the note's own
    title is subject to escaping: the escaped display title is the date
    part as it is, followed for a titled note by [ - ] and the escaped
    title, and for an untitled one by the unchanged time or by nothing. *)
Theorem displayTitle_escapes_title_only (jsonData : KeepNote) :
  match generateDisplayTitle jsonData with
  | Some displayTitle =>
      exists date,
        (date = js "Unknown Date" \/ exists t, date = isoDate t)
        /\ if hasText (title jsonData)
           then displayTitle = date ++ js " - " ++ titleText jsonData
                /\ Hashtags.escapeInvalidHashtags validLabels displayTitle
                   = date ++ js " - "
                       ++ Hashtags.escapeInvalidHashtags validLabels (titleText jsonData)
           else Hashtags.escapeInvalidHashtags validLabels displayTitle = displayTitle
  | None => invalidTimestamp jsonData
  end.
Proof.
  rewrite generateDisplayTitle_eq. unfold invalidTimestamp.
  destruct (hasTimestamp jsonData) as [ts|].
  - destruct (newDate ts) as [t|] eqn:Et; [|now exists ts].
    exists (isoDate t). split; [right; now exists t|].
    destruct (hasText (title jsonData)).
    + split; [reflexivity|].
      rewrite (esc_app_plain _ _ (isoDate_no_hash t)).
      now rewrite (esc_app_plain (js " - ")).
    + rewrite (esc_app_plain _ _ (isoDate_no_hash t)). f_equal.
      apply esc_fixed. unfold invalidCount.
      replace (matches re_hashtag (js "." ++ fixedDigits 2 (getHours t)
                                     ++ js "." ++ fixedDigits 2 (getMinutes t)))
        with (@nil str); [reflexivity|].
      symmetry.
      assert (Hno : forall s, forallb (fun c => negb (c =? HASH)%N) s = true ->
                              matches re_hashtag s = []).
      { induction s as [|c r IH]; [reflexivity|]. simpl. intros E.
        apply andb_true_iff in E as [Ec Er]. apply negb_true_iff, N.eqb_neq in Ec.
        rewrite (matches_hashtag_plain _ _ (re_hashtag_not_hash _ _ Ec)). now apply IH. }
      apply Hno. rewrite !forallb_app.
      assert (Hd : forall w n, forallb (fun c => negb (c =? HASH)%N) (fixedDigits w n) = true).
      { intros w n. pose proof (fixedDigits_digits w n) as E. revert E. apply forallb_impl.
        intros c Hc. apply negb_true_iff.
        destruct (N.eqb_spec c HASH) as [-> | _]; [discriminate | reflexivity]. }
      now rewrite !Hd.
  - exists (js "Unknown Date"). split; [now left|].
    destruct (hasText (title jsonData)).
    + split; [reflexivity|]. now rewrite (esc_app_plain (js "Unknown Date")),
        (esc_app_plain (js " - ")).
    + reflexivity.
Qed.
End TitleEscaping.

(** ** Style and script elements *)

Lemma styleTag_removed tagName attribs children :
  isStyleTag tagName = true ->
  negb (isStyleOrScript (removeStyleScript (Element tagName attribs children))) = false.
Proof. intros E. cbn [removeStyleScript isStyleOrScript]. unfold isStyleTag in E. now rewrite E. Qed.

Lemma contents_without_style before after tagName attribs children :
  isStyleTag tagName = true ->
  filter (fun c => negb (isStyleOrScript c))
    (map removeStyleScript (before ++ Element tagName attribs children :: after))
  = filter (fun c => negb (isStyleOrScript c)) (map removeStyleScript (before ++ after)).
Proof.
  intros E. rewrite !map_app, !filter_app. cbn [map filter].
  now rewrite (styleTag_removed _ attribs children E).
Qed.

(** X20: a [style] or [script] element contributes nothing to the
    cheerio renderer's text, whether it stands among the children of
    [body] or among the children of an element there. *)
Theorem htmlToMarkdown_ignores_style {H : Host} (before after inner_before inner_after : list node)
    (styleTag parentTag : str) (attribs parentAttribs : list (str * str))
    (children : list node) :
  isStyleTag styleTag = true ->
  Frontmatter.htmlToMarkdown (before ++ Element styleTag attribs children :: after)
  = Frontmatter.htmlToMarkdown (before ++ after)
  /\ Frontmatter.htmlToMarkdown
       (before ++ Element parentTag parentAttribs
                    (inner_before ++ Element styleTag attribs children :: inner_after)
               :: after)
     = Frontmatter.htmlToMarkdown
         (before ++ Element parentTag parentAttribs (inner_before ++ inner_after) :: after).
Proof.
  intros E. split.
  - unfold Frontmatter.htmlToMarkdown. now rewrite (contents_without_style _ _ _ _ _ E).
  - unfold Frontmatter.htmlToMarkdown. rewrite !map_app. cbn [map removeStyleScript].
    now rewrite (contents_without_style _ _ _ _ _ E).
Qed.

Lemma htmlToMarkdown_ignores_style_witness :
  Frontmatter.htmlToMarkdown (H := utcHost)
    ([TextNode (js "a")] ++ Element (js "script") [] [TextNode (js "alert(1)")] :: [])
  = Frontmatter.htmlToMarkdown (H := utcHost) ([TextNode (js "a")] ++ [])
  /\ Frontmatter.htmlToMarkdown (H := utcHost)
       ([TextNode (js "a")]
          ++ Element (js "p") []
               ([TextNode (js "b")] ++ Element (js "script") [] [TextNode (js "alert(1)")] :: [])
          :: [])
     = Frontmatter.htmlToMarkdown (H := utcHost)
         ([TextNode (js "a")] ++ Element (js "p") [] ([TextNode (js "b")] ++ []) :: []).
Proof.
  apply (htmlToMarkdown_ignores_style (H := utcHost) [TextNode (js "a")] []
           [TextNode (js "b")] [] (js "script") (js "p") [] []
           [TextNode (js "alert(1)")]).
  reflexivity.
Defined.
